(** * OT.ae static site: sitemap generator, header scroll handler, image optimizer

    A shallow embedding of the three scripts of the repository:

    - [scripts/generate-sitemap.mjs]  (module [Sitemap]),
    - the navigation scroll handler   (module [Navigation]),
    - the image optimisation module   (module [Images]).

    JavaScript strings are embedded as [string]: one [ascii] per code unit,
    which covers every string whose code units are below 256.  The default
    order of [Array.prototype.sort], the comparison of code units, is then
    [String.le]. *)

From Stdlib Require Import QArith.
From stdpp Require Import base list strings gmap sorting pretty.
From Stdlib Require Import Ascii String.

Local Open Scope string_scope.
Local Open Scope list_scope.

(** ** The string methods the scripts call *)

Module JS.

(** [s.startsWith(p)] *)
Definition startsWith (s p : string) : bool := String.prefix p s.

(** [s.endsWith(suf)]: some tail of [s] is [suf]. *)
Fixpoint endsWith (s suf : string) : bool :=
  String.eqb s suf ||
  match s with
  | EmptyString => false
  | String _ s' => endsWith s' suf
  end.

(** [s.includes(p)]: [p] starts at some position of [s]. *)
Fixpoint includes (s p : string) : bool :=
  String.prefix p s ||
  match s with
  | EmptyString => false
  | String _ s' => includes s' p
  end.

(** [arr.includes(x)] on an array of strings. *)
Definition arrayIncludes (arr : list string) (x : string) : bool :=
  existsb (String.eqb x) arr.

(** [s.replace(/c/g, d)] for a single character [c]. *)
Fixpoint replaceChar (c d : ascii) (s : string) : string :=
  match s with
  | EmptyString => EmptyString
  | String a s' => String (if Ascii.eqb a c then d else a) (replaceChar c d s')
  end.

(** [s.replace(/pat$/, repl)] for a pattern [pat] that is anchored at the end
    of the input: the search tries the positions of [s] from the left, and at
    each one the pattern matches when the rest of [s] satisfies [pat].  The
    first match is replaced; without a match [s] is returned as it is. *)
Fixpoint replaceAtEnd (pat : string -> bool) (repl : string) (s : string)
  : string :=
  if pat s then repl
  else match s with
       | EmptyString => EmptyString
       | String a s' => String a (replaceAtEnd pat repl s')
       end.

(** Case folding of a regular expression with the [i] flag (and no [u]
    flag): a character is compared by its upper-case form, and a character
    outside ASCII never folds to an ASCII letter. *)
Definition canonicalize (a : ascii) : ascii :=
  let n := nat_of_ascii a in
  if (97 <=? n)%nat && (n <=? 122)%nat then ascii_of_nat (n - 32) else a.

Fixpoint upper (s : string) : string :=
  match s with
  | EmptyString => EmptyString
  | String a s' => String (canonicalize a) (upper s')
  end.

(** [s.trim()], on code units below 256. *)
Definition isWhiteSpace (a : ascii) : bool :=
  let n := nat_of_ascii a in
  ((9 <=? n)%nat && (n <=? 13)%nat) || (n =? 32)%nat || (n =? 160)%nat.

Fixpoint trimStart (s : string) : string :=
  match s with
  | EmptyString => EmptyString
  | String a s' => if isWhiteSpace a then trimStart s' else s
  end.

Fixpoint trimEnd (s : string) : string :=
  match s with
  | EmptyString => EmptyString
  | String a s' =>
      match trimEnd s' with
      | EmptyString => if isWhiteSpace a then EmptyString else String a ""
      | t => String a t
      end
  end.

Definition trim (s : string) : string := trimEnd (trimStart s).

(** [s.split(c)] for a separator of one character. *)
Fixpoint split (c : ascii) (s : string) : list string :=
  match s with
  | EmptyString => [EmptyString]
  | String a s' =>
      if Ascii.eqb a c then EmptyString :: split c s'
      else match split c s' with
           | h :: t => String a h :: t
           | [] => [String a EmptyString]
           end
  end.

(** Truthiness of a string: [Boolean(s)]. *)
Definition truthy (s : string) : bool := negb (String.eqb s "").

End JS.

(** ** The sitemap generator, [scripts/generate-sitemap.mjs] *)

Module Sitemap.

(** *** Paths and the file system

    Every path the generator handles lies at or below [ROOT_DIR].  Such a path
    is kept as the list of its segments below [ROOT_DIR]: [[]] is [ROOT_DIR]
    itself, [path.join(dir, name)] adds a segment, and
    [path.relative(ROOT_DIR, p)] joins the segments with the separator. *)

Abbreviation path := (list string).

Definition path_join (dir : path) (name : string) : path := dir ++ [name].

Definition path_relative_to_root (p : path) : string := String.concat "/" p.

(** What [fs.readdir(dir, {withFileTypes: true})] gives: it rejects with an
    error, or it lists the entries of the directory.  An entry is a regular
    file ([isFile()]), a directory ([isDirectory()]) with what reading it
    gives in turn, or something else (a symbolic link, a socket, ...). *)
Inductive dirent : Type :=
  | File (name : string)
  | Other (name : string)
  | Dir (name : string) (content : readdir)
with readdir : Type :=
  | Rejects (e : string)
  | Lists (entries : list dirent).

Definition entry_name (entry : dirent) : string :=
  match entry with
  | File name | Other name | Dir name _ => name
  end.

(** Outcome of an [async] function: the value it resolves to, or the error
    it rejects with. *)
Inductive promise (A : Type) : Type :=
  | Resolved (a : A)
  | Rejected (e : string).
Arguments Resolved {A} a.
Arguments Rejected {A} e.

(** [await p] followed by the rest of the function body: a rejection of [p]
    is thrown, and so rejects the whole function. *)
#[global] Instance await : MBind promise := λ A B k p,
  match p with
  | Resolved a => k a
  | Rejected e => Rejected e
  end.

Definition BASE_URL : string := "https://onlinetranslation.ae".

Definition SKIP_FILES : list string := ["404.html"; "offline.html"].
Definition SKIP_DIRS : list string :=
  ["node_modules"; ".git"; ".github"; "scripts"; "styles"; "images";
   "attached_assets"].

(** The [for] loop of [getHtmlFiles] over the entries of [dir], with the
    array [files] built so far; [self] is [getHtmlFiles]. *)
Definition scanEntries (self : path -> readdir -> promise (list path))
    (dir : path) : list dirent -> list path -> promise (list path) :=
  fix loop (entries : list dirent) (files : list path) {struct entries} :=
    match entries with
    | [] => Resolved files
    | entry :: rest =>
        let fullPath := path_join dir (entry_name entry) in
        match entry with
        | Dir name content =>
            if negb (JS.arrayIncludes SKIP_DIRS name) then
              sub ← self fullPath content;
              loop rest (files ++ sub)
            else loop rest files
        | File name =>
            if JS.endsWith name ".html" then
              if negb (JS.arrayIncludes SKIP_FILES name)
              then loop rest (files ++ [fullPath])
              else loop rest files
            else loop rest files
        | Other _ => loop rest files
        end
    end.

(** [getHtmlFiles(dir)], where [r] is what reading [dir] gives. *)
Fixpoint getHtmlFiles (dir : path) (r : readdir) {struct r}
  : promise (list path) :=
  match r with
  | Rejects e => Rejected e
  | Lists entries => scanEntries getHtmlFiles dir entries []
  end.

(** [toUrlPath(filePath)] *)
Definition toUrlPath (filePath : path) : string :=
  let relPath := JS.replaceChar "\" "/" (path_relative_to_root filePath) in
  if String.eqb relPath "index.html" then "/"
  else
    let relPath :=
      if JS.endsWith relPath "/index.html"
      then JS.replaceAtEnd (String.eqb "index.html") "" relPath
      else relPath in
    let relPath :=
      if negb (JS.startsWith relPath "/") then "/" +:+ relPath else relPath in
    relPath.

Record meta : Type := Meta { m_changefreq : string; m_priority : string }.

(** [getMeta(urlPath)] *)
Definition getMeta (urlPath : string) : meta :=
  if String.eqb urlPath "/" then Meta "weekly" "1.0"
  else if JS.includes urlPath "/services/" then Meta "weekly" "0.9"
  else if JS.includes urlPath "/personal/" || JS.includes urlPath "/legal/"
    then Meta "weekly" "0.9"
  else if JS.includes urlPath "/locations/" then Meta "monthly" "0.8"
  else if JS.includes urlPath "/industries/" then Meta "monthly" "0.7"
  else if JS.includes urlPath "/resources/" then Meta "monthly" "0.7"
  else if JS.includes urlPath "privacy" || JS.includes urlPath "terms"
    then Meta "yearly" "0.3"
  else Meta "monthly" "0.6".

Record url : Type :=
  Url { loc : string; lastmod : string; changefreq : string;
        priority : string }.

(** The default [sort()] of an array of strings orders them by code units;
    whatever algorithm the engine runs, the sorted array is the one
    [merge_sort] gives (see [sort_unique]). *)
Definition sort (l : list string) : list string := merge_sort String.le l.

(** The array [urls] of [generate]. *)
Definition buildUrls (now : string) (htmlFiles : list path) : list url :=
  (fun p =>
     let m := getMeta p in
     Url (BASE_URL +:+ p) now (m_changefreq m) (m_priority m))
  <$> sort (filter (fun p => Is_true (JS.truthy p)) (toUrlPath <$> htmlFiles)).

Definition dq : string := String "034" "".
Definition nl : string := String "010" "".

Definition renderUrl (u : url) : string :=
  "    <url>" +:+ nl +:+
  "        <loc>" +:+ loc u +:+ "</loc>" +:+ nl +:+
  "        <lastmod>" +:+ lastmod u +:+ "</lastmod>" +:+ nl +:+
  "        <changefreq>" +:+ changefreq u +:+ "</changefreq>" +:+ nl +:+
  "        <priority>" +:+ priority u +:+ "</priority>" +:+ nl +:+
  "    </url>".

(** The template string [xml] of [generate]. *)
Definition renderXml (urls : list url) : string :=
  "<?xml version=" +:+ dq +:+ "1.0" +:+ dq +:+ " encoding=" +:+ dq +:+ "UTF-8" +:+ dq
    +:+ "?>" +:+ nl +:+
  "<urlset xmlns=" +:+ dq +:+ "http://www.sitemaps.org/schemas/sitemap/0.9" +:+ dq
    +:+ nl +:+
  "        xmlns:xsi=" +:+ dq +:+ "http://www.w3.org/2001/XMLSchema-instance"
    +:+ dq +:+ nl +:+
  "        xsi:schemaLocation=" +:+ dq
    +:+ "http://www.sitemaps.org/schemas/sitemap/0.9" +:+ nl +:+
  "                            "
    +:+ "http://www.sitemaps.org/schemas/sitemap/0.9/sitemap.xsd" +:+ dq +:+ ">"
    +:+ nl +:+
  String.concat nl (renderUrl <$> urls) +:+ nl +:+
  "</urlset>".

(** *** One run of the script

    The world a run meets: what reading the directories below [ROOT_DIR]
    gives, the date, and whether [fs.writeFile] rejects. *)
Record world : Type :=
  World { w_root : readdir; w_now : string; w_write : option string }.

(** What a run leaves behind. *)
Record outcome : Type :=
  Outcome { exit_code : nat;
            stdout : list string;
            stderr : list (string * string);
            written : option (path * string);
            entries : option (list url) }.

Definition writeFile (w : world) (file : path) (data : string)
  : promise (path * string) :=
  match w_write w with
  | Some e => Rejected e
  | None => Resolved (file, data)
  end.

(** [generate()]: the file written, the line logged and the entries that
    were serialized. *)
Definition generate (w : world)
  : promise (path * string * string * list url) :=
  htmlFiles ← getHtmlFiles [] (w_root w);
  let now := w_now w in
  let urls := buildUrls now htmlFiles in
  let xml := renderXml urls in
  f ← writeFile w (path_join [] "sitemap.xml") (JS.trim xml +:+ nl);
  Resolved
    (f, "Generated sitemap.xml with " +:+ pretty (List.length urls) +:+ " URLs.", urls).

(** The script: [generate().catch(...)]. *)
Definition main (w : world) : outcome :=
  match generate w with
  | Resolved (f, line, urls) => Outcome 0 [line] [] (Some f) (Some urls)
  | Rejected e => Outcome 1 [] [("Error generating sitemap:", e)] None None
  end.

(** The URL path of an entry: its [loc] without [BASE_URL]. *)
Definition urlPath (u : url) : string :=
  String.substring (String.length BASE_URL)
    (String.length (loc u) - String.length BASE_URL) (loc u).

End Sitemap.


(** ** Class lists of DOM elements *)

Module DOM.

(** A [DOMTokenList]: the tokens in order, none twice. *)
Abbreviation classList := (list string).

Definition contains (cl : classList) (c : string) : bool :=
  existsb (String.eqb c) cl.

Definition add (cl : classList) (c : string) : classList :=
  if contains cl c then cl else cl ++ [c].

Definition remove (cl : classList) (c : string) : classList :=
  filter (fun x => x ≠ c) cl.

End DOM.

(** ** The navigation scroll handler *)

Module Navigation.

(** The variables of the script and what it reads of the window: [header]
    is [None] when the document has no element with id [header];
    [frames] counts the callbacks handed to [requestAnimationFrame]. *)
Record state : Type :=
  State { header : option DOM.classList;
          ticking : bool;
          pageYOffset : Q;
          frames : nat }.

(** [a > b] on numbers. *)
Definition gt (a b : Q) : bool := negb (Qle_bool a b).

Definition updateHeader (st : state) : state :=
  match header st with
  | None => State None false (pageYOffset st) (frames st)
  | Some classes =>
      let currentScroll := pageYOffset st in
      let classes :=
        if gt currentScroll 50
        then DOM.add classes "scrolled"
        else DOM.remove classes "scrolled" in
      State (Some classes) false (pageYOffset st) (frames st)
  end.

(** The listener of the [scroll] event. *)
Definition onScroll (st : state) : state :=
  if negb (ticking st)
  then State (header st) true (pageYOffset st) (S (frames st))
  else st.

(** The class [scrolled] is on the header element. *)
Definition scrolled (st : state) : bool :=
  match header st with
  | Some classes => DOM.contains classes "scrolled"
  | None => false
  end.

End Navigation.

(** ** The image optimizer *)

Module Images.

(** An image element: the attributes the optimizer reads and writes.
    [dataset_src] is [data-src], [None] when the attribute is absent. *)
Record img : Type :=
  Img { dataset_src : option string;
        dataset_srcset : option string;
        attr_loading : option string;
        attr_src : option string;
        attr_srcset : option string;
        classes : DOM.classList }.

(** The [Image] object that [loadImage] creates, with what its two handlers
    have captured. *)
Record tempImg : Type :=
  Temp { t_img : nat; t_src : string; t_srcset : option string;
         t_optimizedSrc : string }.

(** The optimizer and the part of the page it works on.  Image elements are
    named by numbers.  [imageObserver] is [None] as long as no
    [IntersectionObserver] was made, and otherwise holds the elements under
    observation; [pending] are the [tempImg] that have neither loaded nor
    failed yet, [requested] the loads started so far, each with the element
    it is for, [timers] the running fade-in timers. *)
Record page : Type :=
  Page { webpSupported : option bool;
         imageObserver : option (gset nat);
         mutationObserver : bool;
         imgs : gmap nat img;
         pending : list tempImg;
         requested : list (nat * string);
         timers : list nat;
         body : DOM.classList }.

(** A node added to the document, as a mutation record reports it: whether
    it is an element, the image it is when its tag is [IMG], and the image
    elements below it. *)
Record node : Type :=
  Node { isElement : bool; asImg : option nat; descendants : list nat }.

Definition set_imgs (pg : page) (m : gmap nat img) : page :=
  Page (webpSupported pg) (imageObserver pg) (mutationObserver pg) m
       (pending pg) (requested pg) (timers pg) (body pg).

Definition set_imageObserver (pg : page) (o : option (gset nat)) : page :=
  Page (webpSupported pg) o (mutationObserver pg) (imgs pg)
       (pending pg) (requested pg) (timers pg) (body pg).

Definition set_pending (pg : page) (l : list tempImg) : page :=
  Page (webpSupported pg) (imageObserver pg) (mutationObserver pg) (imgs pg)
       l (requested pg) (timers pg) (body pg).

Definition set_timers (pg : page) (l : list nat) : page :=
  Page (webpSupported pg) (imageObserver pg) (mutationObserver pg) (imgs pg)
       (pending pg) (requested pg) l (body pg).

(** [this.webpSupported] as a condition: [null] and [false] are falsy. *)
Definition supported (webp : option bool) : bool :=
  match webp with
  | Some b => b
  | None => false
  end.

(** The pattern [\.(jpe?g|png)] with the [i] flag, against a whole string. *)
Definition isImageExt (s : string) : bool :=
  let u := JS.upper s in
  String.eqb u ".JPG" || String.eqb u ".JPEG" || String.eqb u ".PNG".

(** [getOptimizedSrc(src)] *)
Definition getOptimizedSrc (webp : option bool) (src : string) : string :=
  if supported webp && negb (JS.endsWith src ".webp")
     && negb (JS.includes src "data:")
  then
    let webpPath := JS.replaceAtEnd isImageExt ".webp" src in
    webpPath
  else src.

(** [s.replace(/\.(jpe?g|png)/gi, '.webp')]; [skip] counts the characters
    of a match that are still to be passed over. *)
Fixpoint replaceImageExts (skip : nat) (s : string) : string :=
  match s with
  | EmptyString => EmptyString
  | String a s' =>
      match skip with
      | S k => replaceImageExts k s'
      | O =>
          let u := JS.upper s in
          if String.prefix ".JPEG" u
          then ".webp" +:+ replaceImageExts 4 s'
          else if String.prefix ".JPG" u || String.prefix ".PNG" u
          then ".webp" +:+ replaceImageExts 3 s'
          else String a (replaceImageExts 0 s')
      end
  end.

(** [getOptimizedSrcset(srcset)] *)
Definition getOptimizedSrcset (webp : option bool) (srcset : string)
  : string :=
  if negb (supported webp) then srcset
  else
    String.concat ", "
      (map (fun src => replaceImageExts 0 (JS.trim src)) (JS.split "," srcset)).

(** Truthiness of an attribute that may be absent. *)
Definition truthy (v : option string) : bool :=
  match v with
  | Some s => JS.truthy s
  | None => false
  end.

Definition loaded (i : img) : bool := DOM.contains (classes i) "loaded".

(** The selector [img[data-src], img[loading="lazy"]]. *)
Definition lazySelector (i : img) : bool :=
  bool_decide (is_Some (dataset_src i))
  || bool_decide (attr_loading i = Some "lazy").

(** [node.loading === 'lazy']: the property gives the state of the
    attribute, whose keywords are compared without regard to case. *)
Definition loadingIsLazy (i : img) : bool :=
  match attr_loading i with
  | Some v => String.eqb (JS.upper v) "LAZY"
  | None => false
  end.

Section Optimizer.

(** Reading [img.src] gives the [src] attribute resolved against the address
    of the document, and the empty string when there is none. *)
Variable resolveURL : string -> string.

Definition get_src (i : img) : string :=
  match attr_src i with
  | Some v => if JS.truthy v then resolveURL v else ""
  | None => ""
  end.

(** [img.dataset.src || img.src] *)
Definition sourceOf (i : img) : string :=
  match dataset_src i with
  | Some v => if JS.truthy v then v else get_src i
  | None => get_src i
  end.

(** [loadImage(img)]: up to [tempImg.src = optimizedSrc], which starts the
    load; the two handlers are [onload] and [onerror] below. *)
Definition loadImage (pg : page) (id : nat) : page :=
  match imgs pg !! id with
  | None => pg
  | Some i =>
      let src := sourceOf i in
      let srcset := dataset_srcset i in
      if JS.truthy src && negb (String.eqb src (get_src i)) then
        let optimizedSrc := getOptimizedSrc (webpSupported pg) src in
        Page (webpSupported pg) (imageObserver pg) (mutationObserver pg)
             (imgs pg)
             (pending pg ++ [Temp id src srcset optimizedSrc])
             (requested pg ++ [(id, optimizedSrc)])
             (timers pg) (body pg)
      else pg
  end.

(** [tempImg.onload] *)
Definition onload (pg : page) (t : tempImg) : page :=
  let update (i : img) : img :=
    let srcset' :=
      if truthy (t_srcset t)
      then Some (getOptimizedSrcset (webpSupported pg) (default "" (t_srcset t)))
      else attr_srcset i in
    Img (dataset_src i) (dataset_srcset i) (attr_loading i)
        (Some (t_optimizedSrc t)) srcset'
        (DOM.add (DOM.add (classes i) "loaded") "fade-in") in
  set_timers (set_imgs pg (alter update (t_img t) (imgs pg)))
             (timers pg ++ [t_img t]).

(** [tempImg.onerror] *)
Definition onerror (pg : page) (t : tempImg) : page :=
  let update (i : img) : img :=
    Img (dataset_src i) (dataset_srcset i) (attr_loading i)
        (Some (t_src t)) (attr_srcset i)
        (DOM.add (classes i) "loaded") in
  set_imgs pg (alter update (t_img t) (imgs pg)).

(** The callback of the fade-in timer. *)
Definition onFadeTimeout (pg : page) (id : nat) : page :=
  let update (i : img) : img :=
    Img (dataset_src i) (dataset_srcset i) (attr_loading i)
        (attr_src i) (attr_srcset i) (DOM.remove (classes i) "fade-in") in
  set_imgs pg (alter update id (imgs pg)).

(** [observer.observe(img)] and [observer.unobserve(img)] *)
Definition observe (pg : page) (id : nat) : page :=
  set_imageObserver pg ((fun o => o ∪ {[id]}) <$> imageObserver pg).

Definition unobserve (pg : page) (id : nat) : page :=
  set_imageObserver pg ((fun o => o ∖ {[id]}) <$> imageObserver pg).

Definition isLoaded (pg : page) (id : nat) : bool :=
  match imgs pg !! id with
  | Some i => loaded i
  | None => false
  end.

Definition matches (pg : page) (sel : img -> bool) (id : nat) : bool :=
  match imgs pg !! id with
  | Some i => sel i
  | None => false
  end.

(** The callback of the [IntersectionObserver]; an entry is its target and
    [isIntersecting]. *)
Definition onIntersection (pg : page) (entries : list (nat * bool)) : page :=
  foldl (fun (pg : page) (entry : nat * bool) =>
           if snd entry then
             let img := fst entry in
             unobserve (loadImage pg img) img
           else pg)
        pg entries.

(** [setupLazyLoading()], on the images of the document in tree order;
    [hasIO] is ['IntersectionObserver' in window]. *)
Definition setupLazyLoading (hasIO : bool) (document : list nat) (pg : page)
  : page :=
  if hasIO then
    foldl (fun (pg : page) (id : nat) => if negb (isLoaded pg id) then observe pg id else pg)
          (set_imageObserver pg (Some (∅ : gset nat)))
          (List.filter (matches pg lazySelector) document)
  else
    foldl loadImage pg
          (List.filter (matches pg (fun i => bool_decide (is_Some (dataset_src i))))
                       document).

(** The callback of the [MutationObserver] on one added node. *)
Definition onAddedNode (pg : page) (n : node) : page :=
  if isElement n then
    let images := List.filter (matches pg lazySelector) (descendants n) in
    let pg :=
      foldl (fun (pg : page) (id : nat) =>
               if negb (isLoaded pg id) && bool_decide (is_Some (imageObserver pg))
               then observe pg id else pg)
            pg images in
    match asImg n with
    | Some id =>
        if matches pg (fun i => truthy (dataset_src i) || loadingIsLazy i) id
        then
          if negb (isLoaded pg id) && bool_decide (is_Some (imageObserver pg))
          then observe pg id else pg
        else pg
    | None => pg
    end
  else pg.

(** The callback of the [MutationObserver]: each mutation record with its
    added nodes. *)
Definition onMutations (pg : page) (mutations : list (list node)) : page :=
  foldl (fun (pg : page) (addedNodes : list node) => foldl onAddedNode pg addedNodes) pg mutations.

(** [observeNewImages()]; [hasMO] is ['MutationObserver' in window]. *)
Definition observeNewImages (hasMO : bool) (pg : page) : page :=
  if hasMO then
    Page (webpSupported pg) (imageObserver pg) true (imgs pg)
         (pending pg) (requested pg) (timers pg) (body pg)
  else pg.

(** [init()], once [checkWebPSupport()] has resolved to [webp].  The call
    of [setupResponsiveImages()] in between writes the [sizes] attribute of
    images only, which is not part of [img]. *)
Definition init (webp hasIO hasMO : bool) (document : list nat) (pg : page)
  : page :=
  let pg :=
    Page (Some webp) (imageObserver pg) (mutationObserver pg) (imgs pg)
         (pending pg) (requested pg) (timers pg)
         (DOM.add (body pg)
                  (if webp then "webp-supported" else "webp-not-supported")) in
  observeNewImages hasMO (setupLazyLoading hasIO document pg).

(** *** What can happen on the page

    The browser runs the callbacks: an observer reports only targets it
    observes, a [tempImg] loads or fails once, a timer fires once.  [Call]
    is a call of the method [loadImage] from outside the module. *)
Inductive event : Type :=
  | Intersection (entries : list (nat * bool))
  | Mutations (mutations : list (list node))
  | Load (k : nat)
  | Error (k : nat)
  | FadeTimeout (k : nat)
  | Call (id : nat).

(** What the callback of an event does to the page. *)
Definition handle (pg : page) (ev : event) : page :=
  match ev with
  | Intersection entries => onIntersection pg entries
  | Mutations mutations => onMutations pg mutations
  | Load k =>
      match pending pg !! k with
      | Some t => onload (set_pending pg (delete k (pending pg))) t
      | None => pg
      end
  | Error k =>
      match pending pg !! k with
      | Some t => onerror (set_pending pg (delete k (pending pg))) t
      | None => pg
      end
  | FadeTimeout k =>
      match timers pg !! k with
      | Some id => onFadeTimeout (set_timers pg (delete k (timers pg))) id
      | None => pg
      end
  | Call id => loadImage pg id
  end.

(** When an event can happen. *)
Definition enabled (pg : page) (ev : event) : Prop :=
  match ev with
  | Intersection entries =>
      ∃ o, imageObserver pg = Some o ∧
           Forall (fun entry : nat * bool => fst entry ∈ o) entries
  | Mutations _ => mutationObserver pg = true
  | Load k | Error k => is_Some (pending pg !! k)
  | FadeTimeout k => is_Some (timers pg !! k)
  | Call _ => True
  end.

Inductive steps : page -> list event -> page -> Prop :=
  | steps_nil pg : steps pg [] pg
  | steps_cons pg ev evs pg' :
      enabled pg ev -> steps (handle pg ev) evs pg' ->
      steps pg (ev :: evs) pg'.

(** The events that the browser raises. *)
Definition raised (ev : event) : Prop :=
  match ev with
  | Call _ => False
  | _ => True
  end.

End Optimizer.

(** The loads started for the image [id]. *)
Definition loadsOf (pg : page) (id : nat) : list string :=
  snd <$> List.filter (fun r => bool_decide (fst r = id)) (requested pg).

(** The image [id] is under observation. *)
Definition observed (pg : page) (id : nat) : Prop :=
  ∃ o, imageObserver pg = Some o ∧ id ∈ o.

Definition isObserved (pg : page) (id : nat) : bool :=
  match imageObserver pg with
  | Some o => bool_decide (id ∈ o)
  | None => false
  end.

End Images.

(** ** The markup builders of the image optimizer *)

Module Markup.

(** [s.lastIndexOf(c)] for one character: the index of the last [c] in [s],
    and -1 when there is none. *)
Fixpoint lastIndexOf (c : ascii) (s : string) : Z :=
  match s with
  | EmptyString => -1
  | String a s' =>
      let i := lastIndexOf c s' in
      if (0 <=? i)%Z then (i + 1)%Z
      else if Ascii.eqb a c then 0%Z else (-1)%Z
  end.

(** [s.substring(start, end)]: an index below 0 counts as 0, one beyond the
    length as the length, and the two are swapped when [start] is the
    larger. *)
Definition clamp (s : string) (i : Z) : nat :=
  Z.to_nat (Z.min (Z.max 0 i) (Z.of_nat (String.length s))).

Definition substring (s : string) (start stop : Z) : string :=
  let a := clamp s start in
  let b := clamp s stop in
  String.substring (Nat.min a b) (Nat.max a b - Nat.min a b) s.

(** [s.substring(start)] *)
Definition substringFrom (s : string) (start : Z) : string :=
  substring s start (Z.of_nat (String.length s)).

(** The pattern [\.[^/.]+] against a whole string: a dot, then one or more
    characters that are neither a slash nor a dot. *)
Definition isExtension (t : string) : bool :=
  match t with
  | EmptyString => false
  | String a r =>
      Ascii.eqb a "." && negb (String.eqb r "")
      && negb (JS.includes r "/") && negb (JS.includes r ".")
  end.

(** [s.match(/pat$/)?.[0]]: the first rest of [s], from the left, that the
    end-anchored pattern matches. *)
Fixpoint matchAtEnd (pat : string -> bool) (s : string) : option string :=
  if pat s then Some s
  else match s with
       | EmptyString => None
       | String _ s' => matchAtEnd pat s'
       end.

(** A value in a template string; [undefined] prints as its name. *)
Definition show (v : option string) : string := default "undefined" v.

(** The argument of [createResponsiveImage]; a property that is absent is
    [None], and the widths are natural numbers. *)
Record options : Type :=
  Options { o_src : string;
            o_alt : option string;
            o_sizes : option string;
            o_widths : option (list nat);
            o_className : option string;
            o_loading : option string }.

(** [baseName] and [extension] of [createResponsiveImage]. *)
Definition baseNameOf (src : string) : string :=
  JS.replaceAtEnd isExtension "" src.

Definition extensionOf (src : string) : string :=
  match matchAtEnd isExtension src with
  | Some m => if JS.truthy m then m else ".jpg"
  | None => ".jpg"
  end.

(** [widths.map(w => ...).join(', ')] for the two kinds of candidates. *)
Definition candidates (baseName extension : string) (widths : list nat)
  : string :=
  String.concat ", "
    ((fun w : nat =>
        baseName +:+ "-" +:+ pretty w +:+ "w" +:+ extension +:+ " "
          +:+ pretty w +:+ "w") <$> widths).

Definition dq : string := String "034" "".
Definition nl : string := String "010" "".

(** [ImageOptimizer.createResponsiveImage(options)] *)
Definition createResponsiveImage (o : options) : string :=
  let src := o_src o in
  let alt := show (o_alt o) in
  let sizes := default "100vw" (o_sizes o) in
  let widths := default [320; 640; 768; 1024; 1280; 1920] (o_widths o) in
  let className := default "" (o_className o) in
  let loading := default "lazy" (o_loading o) in
  let baseName := baseNameOf src in
  let extension := extensionOf src in
  let srcset := candidates baseName extension widths in
  let srcsetWebP := candidates baseName ".webp" widths in
  nl +:+ "            <picture>" +:+ nl +:+ "                <source type="
    +:+ dq +:+ "image/webp" +:+ dq +:+ " srcset=" +:+ dq +:+ srcsetWebP
    +:+ dq +:+ " sizes=" +:+ dq +:+ sizes +:+ dq +:+ ">" +:+ nl
    +:+ "                <source type=" +:+ dq
    +:+ (if String.eqb extension ".png" then "image/png" else "image/jpeg")
    +:+ dq +:+ " srcset=" +:+ dq +:+ srcset +:+ dq +:+ " sizes=" +:+ dq
    +:+ sizes +:+ dq +:+ ">" +:+ nl +:+ "                <img " +:+ nl
    +:+ "                    src=" +:+ dq +:+ src +:+ dq +:+ " " +:+ nl
    +:+ "                    alt=" +:+ dq +:+ alt +:+ dq +:+ " " +:+ nl
    +:+ "                    loading=" +:+ dq +:+ loading +:+ dq +:+ nl
    +:+ "                    class=" +:+ dq +:+ className +:+ dq +:+ nl
    +:+ "                    sizes=" +:+ dq +:+ sizes +:+ dq +:+ nl
    +:+ "                >" +:+ nl +:+ "            </picture>" +:+ nl
    +:+ "        ".

(** [basePath] and [ext] of [generatePictureElement]. *)
Definition basePathOf (src : string) : string :=
  substring src 0 (lastIndexOf "." src).

Definition extOf (src : string) : string :=
  substringFrom src (lastIndexOf "." src).

(** The third argument of [generatePictureElement]. *)
Record pictureOptions : Type :=
  PictureOptions { p_className : option string;
                   p_loading : option string;
                   p_sizes : option string }.

(** [ImageOptimizer.generatePictureElement(src, alt, options)] *)
Definition generatePictureElement (src : string) (alt : option string)
    (o : pictureOptions) : string :=
  let alt := show alt in
  let className := default "" (p_className o) in
  let loading := default "lazy" (p_loading o) in
  let sizes :=
    default "(max-width: 640px) 100vw, (max-width: 1024px) 50vw, 33vw"
      (p_sizes o) in
  let basePath := basePathOf src in
  let ext := extOf src in
  nl +:+ "            <picture class=" +:+ dq +:+ className +:+ dq +:+ ">"
    +:+ nl +:+ "                <source " +:+ nl
    +:+ "                    type=" +:+ dq +:+ "image/webp" +:+ dq +:+ " "
    +:+ nl +:+ "                    srcset=" +:+ dq +:+ basePath +:+ ".webp"
    +:+ dq +:+ nl +:+ "                    sizes=" +:+ dq +:+ sizes +:+ dq
    +:+ ">" +:+ nl +:+ "                <source " +:+ nl
    +:+ "                    type=" +:+ dq +:+ "image/"
    +:+ (if String.eqb ext ".png" then "png" else "jpeg") +:+ dq +:+ " "
    +:+ nl +:+ "                    srcset=" +:+ dq +:+ src +:+ dq +:+ nl
    +:+ "                    sizes=" +:+ dq +:+ sizes +:+ dq +:+ ">" +:+ nl
    +:+ "                <img " +:+ nl +:+ "                    src=" +:+ dq
    +:+ src +:+ dq +:+ " " +:+ nl +:+ "                    alt=" +:+ dq
    +:+ alt +:+ dq +:+ " " +:+ nl +:+ "                    loading=" +:+ dq
    +:+ loading +:+ dq +:+ nl +:+ "                    decoding=" +:+ dq
    +:+ "async" +:+ dq +:+ nl +:+ "                    class=" +:+ dq
    +:+ "optimized-image" +:+ dq +:+ ">" +:+ nl +:+ "            </picture>"
    +:+ nl +:+ "        ".

End Markup.

(** ** [debounce(func, wait)] of the image optimizer *)

Module Debounce.

Section Debounce.

(** The arguments of a call. *)
Context {A : Type}.

(** The variable [timeout] of the closure, [None] before the first call; the
    timers that run, each with the arguments its callback [later] has
    captured; the identifier that the next timer gets; and the calls of
    [func] so far. *)
Record state : Type :=
  State { timeout : option nat;
          timers : gmap nat A;
          fresh : nat;
          invoked : list A }.

Definition initial : state := State None ∅ 0 [].

(** [clearTimeout(id)]; it does nothing for [undefined] and for a timer that
    runs no more. *)
Definition clearTimeout (id : option nat) (ts : gmap nat A) : gmap nat A :=
  match id with
  | Some i => delete i ts
  | None => ts
  end.

(** [executedFunction(...args)] *)
Definition executedFunction (st : state) (args : A) : state :=
  let running := clearTimeout (timeout st) (timers st) in
  let id := fresh st in
  State (Some id) (<[id := args]> running) (S id) (invoked st).

(** [later()], for the arguments it has captured. *)
Definition later (st : state) (args : A) : state :=
  State (timeout st) (clearTimeout (timeout st) (timers st)) (fresh st)
        (invoked st ++ [args]).

(** The timer [id] expires: it runs no more, and its callback is called. *)
Definition expire (st : state) (id : nat) : state :=
  match timers st !! id with
  | Some args =>
      later (State (timeout st) (delete id (timers st)) (fresh st)
                   (invoked st)) args
  | None => st
  end.

Inductive event : Type :=
  | Invoke (args : A)
  | Expire (id : nat).

Definition handle (st : state) (ev : event) : state :=
  match ev with
  | Invoke args => executedFunction st args
  | Expire id => expire st id
  end.

End Debounce.

Arguments state A : clear implicits.
Arguments event A : clear implicits.

End Debounce.

(** ** The scroll listener and the animation frames *)

Module Scroll.

(** The script with the frames the browser has run so far; the listener
    has asked for [Navigation.frames] of them. *)
Record machine : Type :=
  Machine { script : Navigation.state; run : nat }.

(** The script is loaded on a page scrolled to [y]: the variables are
    initialized and [updateHeader()] is called once. *)
Definition load (header : option (list string)) (y : Q) : machine :=
  Machine (Navigation.updateHeader (Navigation.State header false y 0)) 0.

(** The page is scrolled to [y], which raises [scroll]; the browser runs a
    frame, and with it one callback the listener has asked for. *)
Inductive event : Type :=
  | ScrollTo (y : Q)
  | Frame.

Definition pendingFrames (m : machine) : nat :=
  Navigation.frames (script m) - run m.

Definition handle (m : machine) (ev : event) : machine :=
  match ev with
  | ScrollTo y =>
      let st := script m in
      Machine
        (Navigation.onScroll
           (Navigation.State (Navigation.header st) (Navigation.ticking st) y
              (Navigation.frames st)))
        (run m)
  | Frame =>
      if (0 <? pendingFrames m)%nat
      then Machine (Navigation.updateHeader (script m)) (S (run m))
      else m
  end.

End Scroll.

(** ** Notions the properties are stated with *)

(** Occurrence of [p] in [s], stated without the search. *)
Definition occursIn (p s : string) : Prop := ∃ a b, s = a +:+ p +:+ b.

(** The name of a directory entry that holds no separator: it is not empty
    and has neither a slash nor a backslash in it. *)
Definition plainName (n : string) : Prop :=
  n ≠ "" ∧ JS.includes n "/" = false ∧ JS.includes n "\" = false.

(** The metadata by the first segment of the path, as a reading of the rules
    by path prefix has it: a path is under [services] when it starts with
    [/services/], and so on. *)
Definition getMetaByPrefix (urlPath : string) : Sitemap.meta :=
  if String.eqb urlPath "/" then Sitemap.Meta "weekly" "1.0"
  else if JS.startsWith urlPath "/services/"
          || JS.startsWith urlPath "/personal/"
          || JS.startsWith urlPath "/legal/"
    then Sitemap.Meta "weekly" "0.9"
  else if JS.startsWith urlPath "/locations/" then Sitemap.Meta "monthly" "0.8"
  else if JS.startsWith urlPath "/industries/"
          || JS.startsWith urlPath "/resources/"
    then Sitemap.Meta "monthly" "0.7"
  else if JS.includes urlPath "privacy" || JS.includes urlPath "terms"
    then Sitemap.Meta "yearly" "0.3"
  else Sitemap.Meta "monthly" "0.6".

(** Every regular file of the tree that reading [dir] gives, by its path;
    what lies below a directory that cannot be read is not known. *)
Definition filesOfEntries
    (self : list string → Sitemap.readdir → list (list string))
    (dir : list string) : list Sitemap.dirent → list (list string) :=
  fix go (entries : list Sitemap.dirent) : list (list string) :=
    match entries with
    | [] => []
    | entry :: rest =>
        match entry with
        | Sitemap.File name => [dir ++ [name]]
        | Sitemap.Other _ => []
        | Sitemap.Dir name content => self (dir ++ [name]) content
        end ++ go rest
    end.

Fixpoint regularFiles (dir : list string) (r : Sitemap.readdir)
  : list (list string) :=
  match r with
  | Sitemap.Rejects _ => []
  | Sitemap.Lists entries => filesOfEntries regularFiles dir entries
  end.

(** The name of a file and the directories it lies in, below the root. *)
Definition fileName (p : list string) : string := List.last p "".
Definition directories (p : list string) : list string := List.removelast p.

(** An HTML file, a file of the skip list, a file inside a directory of
    the skip list. *)
Definition isHtml (p : list string) : bool := JS.endsWith (fileName p) ".html".
Definition isSkipFile (p : list string) : bool :=
  bool_decide (fileName p ∈ Sitemap.SKIP_FILES).
Definition inSkipDir (p : list string) : bool :=
  bool_decide (Exists (λ d, d ∈ Sitemap.SKIP_DIRS) (directories p)).

(** The files that are to be in the sitemap. *)
Definition listed (p : list string) : bool :=
  isHtml p && negb (isSkipFile p) && negb (inSkipDir p).

(** The segments of the URL path of a file: those of the file path, with
    the name [index.html] left empty. *)
Definition urlSegments (p : list string) : list string :=
  if String.eqb (fileName p) "index.html" then directories p ++ [""] else p.

(** Reading some directory that the walk enters, one that lies in no
    directory of the skip list, rejects with [e]. *)
Inductive rejectsBelow : Sitemap.readdir → string → Prop :=
  | rejects_here e : rejectsBelow (Sitemap.Rejects e) e
  | rejects_in entries name content e :
      Sitemap.Dir name content ∈ entries →
      name ∉ Sitemap.SKIP_DIRS →
      rejectsBelow content e →
      rejectsBelow (Sitemap.Lists entries) e.

(** A file-system error of a run: reading a directory or writing the file
    rejects. *)
Definition fsError (w : Sitemap.world) (e : string) : Prop :=
  rejectsBelow (Sitemap.w_root w) e ∨ Sitemap.w_write w = Some e.

(** What the walk comes to: it rejects with the error of a directory it
    could not read, or no such directory exists and it resolves to the
    files that are to be listed, in the order of the tree. *)
Definition walkOutcome (dir : list string) (r : Sitemap.readdir) : Prop :=
  (∃ e, Sitemap.getHtmlFiles dir r = Sitemap.Rejected e ∧ rejectsBelow r e)
  ∨ (Sitemap.getHtmlFiles dir r
       = Sitemap.Resolved (List.filter listed (regularFiles dir r))
     ∧ ∀ e, ¬ rejectsBelow r e).

(** Induction on what reading a directory gives, with the property at hand
    for the content of every directory among the entries. *)
Definition entryHolds (P : Sitemap.readdir → Prop) (entry : Sitemap.dirent)
  : Prop :=
  match entry with
  | Sitemap.Dir _ content => P content
  | _ => True
  end.

Section readdir_induction.

Variable P : Sitemap.readdir → Prop.
Hypothesis Prejects : ∀ e, P (Sitemap.Rejects e).
Hypothesis Plists :
  ∀ entries, Forall (entryHolds P) entries → P (Sitemap.Lists entries).

Fixpoint readdir_induction (r : Sitemap.readdir) : P r :=
  match r with
  | Sitemap.Rejects e => Prejects e
  | Sitemap.Lists entries =>
      Plists entries
        ((fix all (l : list Sitemap.dirent) : Forall (entryHolds P) l :=
            match l with
            | [] => @List.Forall_nil _ (entryHolds P)
            | entry :: rest =>
                @List.Forall_cons _ (entryHolds P) entry rest
                  (match entry return entryHolds P entry with
                   | Sitemap.Dir _ content => readdir_induction content
                   | _ => I
                   end)
                  (all rest)
            end) entries)
  end.

End readdir_induction.

(** An image is settled when it carries [loaded] and is not observed. *)
Definition settled (pg : Images.page) (id : nat) : Prop :=
  Images.isLoaded pg id = true ∧ ¬ Images.observed pg id.

(** [pg'] has the images and the loads of [pg]. *)
Definition quiet (pg pg' : Images.page) : Prop :=
  Images.imgs pg' = Images.imgs pg ∧ Images.requested pg' = Images.requested pg.

(** What holds of the script between any two events: the frames asked for
    and not yet run are one when [ticking] is set and none otherwise, and
    with [ticking] not set the class of the header is that of the offset. *)
Definition inStep (m : Scroll.machine) : Prop :=
  let st := Scroll.script m in
  Scroll.run m + (if Navigation.ticking st then 1 else 0) = Navigation.frames st ∧
  (Navigation.ticking st = false →
   Navigation.scrolled st
   = bool_decide (is_Some (Navigation.header st))
     && Navigation.gt (Navigation.pageYOffset st) 50).

(** The attributes of an image that the page markup sets and the optimizer
    reads. *)
Definition sameMarkup (i i' : Images.img) : Prop :=
  Images.dataset_src i' = Images.dataset_src i ∧
  Images.dataset_srcset i' = Images.dataset_srcset i ∧
  Images.attr_loading i' = Images.attr_loading i.

(** Every timer that runs is the one [timeout] names. *)
Definition latestOnly {A : Type} (st : Debounce.state A) : Prop :=
  ∀ id a, Debounce.timers st !! id = Some a → Debounce.timeout st = Some id.

(** A page with one image, [hero.jpg] given by [data-src], on which the
    optimizer has started with WebP support, an [IntersectionObserver] and a
    [MutationObserver]. *)
Definition heroJpg : string := "https://onlinetranslation.ae/images/hero.jpg".
Definition heroWebp : string := "https://onlinetranslation.ae/images/hero.webp".

Definition heroPage : Images.page :=
  Images.init id true true true [0]
    (Images.Page None None false
       {[ 0 := Images.Img (Some heroJpg) None None None None [] ]}
       [] [] [] []).

(** * Properties *)

(** ** Strings *)

#[local] Arguments String.append !_ _ / : simpl nomatch.
#[local] Arguments JS.arrayIncludes : simpl never.

Lemma append_nil_r s : s +:+ "" = s.
Proof. induction s; simpl; congruence. Qed.

Lemma append_assoc s1 s2 s3 : (s1 +:+ s2) +:+ s3 = s1 +:+ s2 +:+ s3.
Proof. induction s1; simpl; congruence. Qed.

Lemma length_append s1 s2 :
  String.length (s1 +:+ s2) = String.length s1 + String.length s2.
Proof. induction s1; simpl; congruence. Qed.

Lemma prefix_spec p s : String.prefix p s = true ↔ ∃ b, s = p +:+ b.
Proof.
  revert s. induction p as [|a p IH]; intros s.
  - destruct s; simpl; split; eauto.
  - destruct s as [|c s]; simpl.
    + split; [done|]. by intros [b ?].
    + destruct (Ascii.ascii_dec a c) as [->|Hne].
      * rewrite IH. split; intros [b Hb]; exists b; congruence.
      * split; [done|]. intros [b Hb]. congruence.
Qed.

Lemma includes_nil p : JS.includes "" p = String.prefix p "".
Proof. simpl. apply orb_false_r. Qed.

Lemma includes_cons c s p :
  JS.includes (String c s) p = String.prefix p (String c s) || JS.includes s p.
Proof. done. Qed.

Lemma includes_spec s p : JS.includes s p = true ↔ occursIn p s.
Proof.
  induction s as [|c s IH]; [rewrite includes_nil|rewrite includes_cons].
  - rewrite prefix_spec. split.
    + intros [b ->]. by exists "", b.
    + intros ([|??] & b & Hb); [by exists b|done].
  - rewrite orb_true_iff, prefix_spec, IH. split.
    + intros [[b ->]|(a & b & ->)]; [by exists "", b|by exists (String c a), b].
    + intros ([|c' a] & b & Hb); simpl in Hb.
      * left. by exists b.
      * right. exists a, b. congruence.
Qed.

Lemma startsWith_includes s p :
  JS.startsWith s p = true → JS.includes s p = true.
Proof. unfold JS.startsWith. destruct s; simpl; intros ->; done. Qed.

Lemma endsWith_nil suf : JS.endsWith "" suf = String.eqb "" suf.
Proof. simpl. apply orb_false_r. Qed.

Lemma endsWith_cons c s suf :
  JS.endsWith (String c s) suf
    = String.eqb (String c s) suf || JS.endsWith s suf.
Proof. done. Qed.

Lemma endsWith_spec s suf : JS.endsWith s suf = true ↔ ∃ a, s = a +:+ suf.
Proof.
  induction s as [|c s IH]; [rewrite endsWith_nil|rewrite endsWith_cons].
  - rewrite String.eqb_eq. split.
    + intros <-. by exists "".
    + intros ([|??] & Ha); [done|]. by destruct suf.
  - rewrite orb_true_iff, String.eqb_eq, IH. split.
    + intros [<-|[a ->]]; [by exists ""|by exists (String c a)].
    + intros ([|c' a] & Ha); simpl in Ha; [by left|].
      right. exists a. congruence.
Qed.

Lemma endsWith_append a suf : JS.endsWith (a +:+ suf) suf = true.
Proof. apply endsWith_spec. by exists a. Qed.

(** A match of an end-anchored pattern leaves what stood before it,
    followed by the replacement. *)
Lemma replaceAtEnd_cases pat repl s :
  JS.replaceAtEnd pat repl s = s ∨
  ∃ a b, s = a +:+ b ∧ pat b = true ∧ JS.replaceAtEnd pat repl s = a +:+ repl.
Proof.
  induction s as [|c s IH]; simpl.
  - destruct (pat "") eqn:Hp; [|by left]. right. by exists "", "".
  - destruct (pat (String c s)) eqn:Hp.
    + right. by exists "", (String c s).
    + destruct IH as [->|(a & b & -> & Hb & ->)]; [by left|].
      right. by exists (String c a), b.
Qed.

Lemma eqb_longer suf a c :
  String.eqb suf (String c a +:+ suf) = false.
Proof.
  apply String.eqb_neq. intros H.
  apply (f_equal String.length) in H. rewrite length_append in H.
  simpl in H. lia.
Qed.

Lemma replaceAtEnd_suffix suf repl a :
  JS.replaceAtEnd (String.eqb suf) repl (a +:+ suf) = a +:+ repl.
Proof.
  induction a as [|c a IH]; simpl.
  - destruct suf; simpl; [done|]. by rewrite Ascii.eqb_refl, String.eqb_refl.
  - change (String c (a +:+ suf)) with (String c a +:+ suf) at 1.
    rewrite eqb_longer. by rewrite IH.
Qed.

(** ** The image optimizer: format substitution *)

Lemma getOptimizedSrc_unsupported webp src :
  Images.supported webp = false → Images.getOptimizedSrc webp src = src.
Proof. intros H. unfold Images.getOptimizedSrc. by rewrite H. Qed.

Lemma length_upper s : String.length (JS.upper s) = String.length s.
Proof. induction s; simpl; congruence. Qed.

Lemma eqb_length s t :
  String.length s ≠ String.length t → String.eqb s t = false.
Proof. intros H. apply String.eqb_neq. by intros ->. Qed.

Lemma isImageExt_longer c s :
  Images.isImageExt (String c (s +:+ ".jpg")) = false.
Proof.
  unfold Images.isImageExt.
  destruct s as [|d s].
  - simpl. destruct (Ascii.eqb (JS.canonicalize c) "."); simpl; done.
  - rewrite !eqb_length; [done|rewrite length_upper; simpl;
      rewrite length_append; simpl; lia..].
Qed.

Lemma replaceAtEnd_jpg stem :
  JS.replaceAtEnd Images.isImageExt ".webp" (stem +:+ ".jpg")
    = stem +:+ ".webp".
Proof.
  induction stem as [|c s IH]; [done|].
  change (String c s +:+ ".jpg") with (String c (s +:+ ".jpg")).
  cbn [JS.replaceAtEnd]. rewrite isImageExt_longer. by rewrite IH.
Qed.

Lemma endsWith_jpg_webp stem : JS.endsWith (stem +:+ ".jpg") ".webp" = false.
Proof.
  apply not_true_iff_false. intros [a Ha]%endsWith_spec.
  revert a Ha. induction stem as [|c s IH]; intros a Ha.
  - apply (f_equal String.length) in Ha. rewrite !length_append in Ha.
    simpl in Ha. lia.
  - destruct a as [|c' a]; simpl in Ha.
    + destruct s as [|d s]; [done|].
      apply (f_equal String.length) in Ha. simpl in Ha.
      rewrite !length_append in Ha. simpl in Ha. lia.
    + injection Ha as _ Ha. by apply (IH a).
Qed.

(** With WebP support, a source [stem.jpg] that is no [data:] URI is
    replaced by [stem.webp]. *)
Lemma getOptimizedSrc_jpg stem :
  JS.includes (stem +:+ ".jpg") "data:" = false →
  Images.getOptimizedSrc (Some true) (stem +:+ ".jpg") = stem +:+ ".webp".
Proof.
  intros Hdata. unfold Images.getOptimizedSrc.
  rewrite endsWith_jpg_webp, Hdata. simpl. apply replaceAtEnd_jpg.
Qed.

Lemma getOptimizedSrc_cases webp src :
  Images.getOptimizedSrc webp src = src ∨
  ∃ a, Images.getOptimizedSrc webp src = a +:+ ".webp".
Proof.
  unfold Images.getOptimizedSrc.
  destruct (_ && _); [|by left].
  destruct (replaceAtEnd_cases Images.isImageExt ".webp" src)
    as [->|(a & b & _ & _ & ->)]; [by left|].
  right. by exists a.
Qed.

Lemma getOptimizedSrc_webp webp src :
  JS.endsWith src ".webp" = true → Images.getOptimizedSrc webp src = src.
Proof.
  intros H. unfold Images.getOptimizedSrc. rewrite H.
  by rewrite andb_false_r.
Qed.

Lemma getOptimizedSrc_includes_data webp src :
  JS.includes src "data:" = true → Images.getOptimizedSrc webp src = src.
Proof.
  intros H. unfold Images.getOptimizedSrc. rewrite H.
  by rewrite andb_false_r.
Qed.

(** C10: [getOptimizedSrc] is idempotent, and it returns a source that ends
    in ['.webp'] and a ['data:'] URI as they are, whatever the detected
    support. *)
Theorem getOptimizedSrc_idempotent (webp : option bool) (src : string) :
  Images.getOptimizedSrc webp (Images.getOptimizedSrc webp src)
    = Images.getOptimizedSrc webp src ∧
  (JS.endsWith src ".webp" = true → Images.getOptimizedSrc webp src = src) ∧
  (JS.startsWith src "data:" = true → Images.getOptimizedSrc webp src = src).
Proof.
  split; [|split].
  - destruct (getOptimizedSrc_cases webp src) as [H|[a H]]; rewrite H;
      [exact H|].
    apply getOptimizedSrc_webp, endsWith_append.
  - apply getOptimizedSrc_webp.
  - intros H. by apply getOptimizedSrc_includes_data, startsWith_includes.
Qed.

Lemma getOptimizedSrc_idempotent_witness :
  JS.endsWith "hero.webp" ".webp" = true ∧
  JS.startsWith "data:image/png;base64,AA.png" "data:" = true ∧
  Images.getOptimizedSrc (Some true) "hero.webp" = "hero.webp" ∧
  Images.getOptimizedSrc (Some true) "data:image/png;base64,AA.png"
    = "data:image/png;base64,AA.png".
Proof.
  split; [reflexivity|]. split; [reflexivity|]. split.
  - apply (proj1 (proj2 (getOptimizedSrc_idempotent (Some true) "hero.webp"))).
    reflexivity.
  - apply (proj2 (proj2 (getOptimizedSrc_idempotent (Some true)
                           "data:image/png;base64,AA.png"))).
    reflexivity.
Defined.

(** ** The navigation scroll handler *)

Lemma contains_add cl c : DOM.contains (DOM.add cl c) c = true.
Proof.
  unfold DOM.add. destruct (DOM.contains cl c) eqn:H; [done|].
  unfold DOM.contains. rewrite existsb_app. simpl.
  by rewrite String.eqb_refl, orb_true_r.
Qed.

Lemma contains_add_other cl c c' :
  DOM.contains cl c' = true → DOM.contains (DOM.add cl c) c' = true.
Proof.
  intros H. unfold DOM.add. destruct (DOM.contains cl c); [done|].
  unfold DOM.contains in *. by rewrite existsb_app, H.
Qed.

Lemma contains_remove cl c : DOM.contains (DOM.remove cl c) c = false.
Proof.
  unfold DOM.contains, DOM.remove. induction cl as [|x cl IH]; [done|].
  rewrite filter_cons. destruct (decide (x ≠ c)) as [Hne|Heq]; [|done].
  simpl. rewrite IH, orb_false_r. apply String.eqb_neq. congruence.
Qed.

Lemma contains_remove_other cl c c' :
  c' ≠ c → DOM.contains (DOM.remove cl c) c' = DOM.contains cl c'.
Proof.
  intros Hne. unfold DOM.contains, DOM.remove.
  induction cl as [|x cl IH]; [done|].
  rewrite filter_cons. destruct (decide (x ≠ c)) as [Hx|Hx]; simpl.
  - by rewrite IH.
  - apply dec_stable in Hx as ->. rewrite IH.
    apply String.eqb_neq in Hne. by rewrite Hne.
Qed.

Lemma gt_spec a b : Navigation.gt a b = true ↔ (b < a)%Q.
Proof.
  unfold Navigation.gt. rewrite negb_true_iff, <- not_true_iff_false.
  rewrite Qle_bool_iff. split; [apply Qnot_le_lt|apply Qlt_not_le].
Qed.

(** C7: after [updateHeader] has run, the header element has the class
    [scrolled] when the scroll offset is above 50, and does not have it
    when the offset is 50 or less. *)
Theorem updateHeader_scrolled (st : Navigation.state) (classes : DOM.classList) :
  Navigation.header st = Some classes →
  ((50 < Navigation.pageYOffset st)%Q →
     Navigation.scrolled (Navigation.updateHeader st) = true) ∧
  ((Navigation.pageYOffset st <= 50)%Q →
     Navigation.scrolled (Navigation.updateHeader st) = false).
Proof.
  intros Hh. unfold Navigation.updateHeader, Navigation.scrolled.
  rewrite Hh. simpl. split; intros Hy.
  - apply gt_spec in Hy. rewrite Hy. apply contains_add.
  - destruct (Navigation.gt _ 50) eqn:Hgt.
    + apply gt_spec in Hgt. by apply Qlt_not_le in Hgt.
    + apply contains_remove.
Qed.

Lemma updateHeader_scrolled_witness :
  Navigation.scrolled
    (Navigation.updateHeader (Navigation.State (Some ["site-header"]) true 51 0))
    = true ∧
  Navigation.scrolled
    (Navigation.updateHeader
       (Navigation.State (Some ["site-header"; "scrolled"]) true 50 0))
    = false.
Proof.
  split.
  - apply (updateHeader_scrolled
             (Navigation.State (Some ["site-header"]) true 51 0)
             ["site-header"]); [reflexivity|reflexivity].
  - apply (updateHeader_scrolled
             (Navigation.State (Some ["site-header"; "scrolled"]) true 50 0)
             ["site-header"; "scrolled"]); [reflexivity|].
    simpl. apply Qle_refl.
Defined.

(** ** The sitemap generator: metadata *)

(** C4, against the claim: a path under [/locations/] that mentions [/legal/]
    further down gets the metadata of [legal], not that of [locations]. *)
Lemma getMeta_not_by_prefix :
  JS.startsWith "/locations/dubai/legal/" "/locations/" = true ∧
  getMetaByPrefix "/locations/dubai/legal/" = Sitemap.Meta "monthly" "0.8" ∧
  Sitemap.getMeta "/locations/dubai/legal/" = Sitemap.Meta "weekly" "0.9" ∧
  Sitemap.getMeta "/locations/dubai/legal/"
    ≠ getMetaByPrefix "/locations/dubai/legal/".
Proof. repeat split. discriminate. Qed.

(** C4, as amended: the metadata goes by the first rule that applies, and a
    rule looks for its marker anywhere in the path. *)
Theorem getMeta_first_match (p : string) :
  let high :=
    occursIn "/services/" p ∨ occursIn "/personal/" p ∨ occursIn "/legal/" p in
  let locations := occursIn "/locations/" p in
  let middle := occursIn "/industries/" p ∨ occursIn "/resources/" p in
  let low := occursIn "privacy" p ∨ occursIn "terms" p in
  (p = "/" → Sitemap.getMeta p = Sitemap.Meta "weekly" "1.0") ∧
  (p ≠ "/" →
   (high → Sitemap.getMeta p = Sitemap.Meta "weekly" "0.9") ∧
   (¬ high → locations → Sitemap.getMeta p = Sitemap.Meta "monthly" "0.8") ∧
   (¬ high → ¬ locations → middle →
      Sitemap.getMeta p = Sitemap.Meta "monthly" "0.7") ∧
   (¬ high → ¬ locations → ¬ middle → low →
      Sitemap.getMeta p = Sitemap.Meta "yearly" "0.3") ∧
   (¬ high → ¬ locations → ¬ middle → ¬ low →
      Sitemap.getMeta p = Sitemap.Meta "monthly" "0.6")).
Proof.
  intros high locations middle low. subst high locations middle low.
  rewrite <- !includes_spec. split.
  - by intros ->.
  - intros Hp%String.eqb_neq. unfold Sitemap.getMeta. rewrite Hp.
    destruct (JS.includes p "/services/"), (JS.includes p "/personal/"),
      (JS.includes p "/legal/"), (JS.includes p "/locations/"),
      (JS.includes p "/industries/"), (JS.includes p "/resources/"),
      (JS.includes p "privacy"), (JS.includes p "terms"); simpl;
      intuition congruence.
Qed.

Lemma getMeta_first_match_witness :
  Sitemap.getMeta "/" = Sitemap.Meta "weekly" "1.0" ∧
  Sitemap.getMeta "/locations/dubai/legal/" = Sitemap.Meta "weekly" "0.9".
Proof.
  split.
  - apply (getMeta_first_match "/"). reflexivity.
  - apply (getMeta_first_match "/locations/dubai/legal/"); [discriminate|].
    right. right. by exists "/locations/dubai", "".
Defined.

(** ** The sitemap generator: URL paths *)

Lemma concat_cons sep x y (l : list string) :
  String.concat sep (x :: y :: l)
    = x +:+ sep +:+ String.concat sep (y :: l).
Proof. done. Qed.

Lemma concat_snoc sep (l : list string) n :
  l ≠ [] → String.concat sep (l ++ [n]) = String.concat sep l +:+ sep +:+ n.
Proof.
  induction l as [|x l IH]; [done|]. intros _.
  destruct l as [|y l]; [done|].
  rewrite <- !app_comm_cons, !concat_cons, app_comm_cons, IH by done.
  by rewrite !append_assoc.
Qed.

Lemma replaceChar_append c d s1 s2 :
  JS.replaceChar c d (s1 +:+ s2)
    = JS.replaceChar c d s1 +:+ JS.replaceChar c d s2.
Proof. induction s1 as [|a s1 IH]; simpl; [done|]. by rewrite IH. Qed.

Lemma includes_char_cons c a s :
  JS.includes (String a s) (String c "") = false →
  a ≠ c ∧ JS.includes s (String c "") = false.
Proof.
  rewrite includes_cons, orb_false_iff. intros [Hp Hs]. split; [|done].
  intros ->. rewrite <- not_true_iff_false, prefix_spec in Hp.
  destruct Hp. by exists s.
Qed.

Lemma replaceChar_absent c d s :
  JS.includes s (String c "") = false → JS.replaceChar c d s = s.
Proof.
  induction s as [|a s IH]; [done|].
  intros [Hne Hs]%includes_char_cons. simpl.
  apply Ascii.eqb_neq in Hne. rewrite Hne. by rewrite IH.
Qed.

Lemma replaceChar_concat_plain (l : list string) :
  Forall plainName l →
  JS.replaceChar "\" "/" (String.concat "/" l) = String.concat "/" l.
Proof.
  induction 1 as [|n l (_ & _ & Hn) _ IH]; [done|].
  destruct l as [|m l]; [by apply replaceChar_absent|].
  rewrite concat_cons, !replaceChar_append, IH.
  by rewrite replaceChar_absent.
Qed.

Lemma startsWith_concat_plain (l : list string) s :
  l ≠ [] → Forall plainName l →
  JS.startsWith (String.concat "/" l +:+ s) "/" = false.
Proof.
  intros Hl Hall. destruct Hall as [|n l (Hne & Hslash & _) _]; [done|].
  destruct n as [|a n]; [done|].
  apply includes_char_cons in Hslash as [Ha _].
  unfold JS.startsWith.
  destruct (String.prefix _ _) eqn:Hp; [|done].
  apply prefix_spec in Hp as [b Hb]. destruct l; simpl in Hb; congruence.
Qed.

(** C1, against the claim: the path of [about/index.html] keeps the slash
    that ends the directory, it is not the directory path [/about]. *)
Lemma toUrlPath_keeps_slash :
  Sitemap.toUrlPath (["about"] ++ ["index.html"]) = "/about/" ∧
  Sitemap.toUrlPath (["about"] ++ ["index.html"])
    ≠ "/" +:+ String.concat "/" ["about"].
Proof. split; [reflexivity|discriminate]. Qed.

Lemma toUrlPath_index_below (dir : list string) :
  dir ≠ [] → Forall plainName dir →
  Sitemap.toUrlPath (dir ++ ["index.html"])
    = "/" +:+ String.concat "/" dir +:+ "/".
Proof.
  intros Hdir Hplain.
  unfold Sitemap.toUrlPath, Sitemap.path_relative_to_root.
  rewrite concat_snoc by done.
  rewrite replaceChar_append, replaceChar_concat_plain by done.
  change (JS.replaceChar "\" "/" ("/" +:+ "index.html")) with "/index.html".
  set (d := String.concat "/" dir).
  assert (String.eqb (d +:+ "/index.html") "index.html" = false) as ->.
  { apply String.eqb_neq. intros H%(f_equal String.length).
    rewrite length_append in H. simpl in H. lia. }
  rewrite endsWith_append.
  change (d +:+ "/index.html") with (d +:+ "/" +:+ "index.html").
  rewrite <- append_assoc, replaceAtEnd_suffix, append_nil_r.
  subst d. rewrite startsWith_concat_plain by done. done.
Qed.

(** C1, as amended: [index.html] at the root has the URL path [/], and
    [index.html] in a directory below the root has the path of that
    directory between two slashes: the slash at its end stays. *)
Theorem toUrlPath_index (dir : list string) :
  Sitemap.toUrlPath ["index.html"] = "/" ∧
  (dir ≠ [] → Forall plainName dir →
   Sitemap.toUrlPath (Sitemap.path_join dir "index.html")
     = "/" +:+ String.concat "/" dir +:+ "/").
Proof. split; [reflexivity|apply toUrlPath_index_below]. Qed.

Lemma toUrlPath_index_witness :
  Sitemap.toUrlPath (Sitemap.path_join ["services"; "legal"] "index.html")
    = "/services/legal/".
Proof.
  apply (toUrlPath_index ["services"; "legal"]); [discriminate|].
  repeat constructor; discriminate.
Defined.

(** ** The sitemap generator: the walk *)

Lemma arrayIncludes_spec arr x : JS.arrayIncludes arr x = bool_decide (x ∈ arr).
Proof.
  unfold JS.arrayIncludes. induction arr as [|y arr IH]; [done|].
  simpl. rewrite IH. destruct (decide (x = y)) as [Heq|Hne].
  - rewrite Heq, String.eqb_refl. symmetry. apply bool_decide_eq_true. left.
  - apply String.eqb_neq in Hne as Hb. rewrite Hb. simpl.
    apply bool_decide_ext. rewrite elem_of_cons. tauto.
Qed.

Lemma fileName_snoc dir n : fileName (dir ++ [n]) = n.
Proof. apply last_last. Qed.

Lemma directories_snoc dir n : directories (dir ++ [n]) = dir.
Proof. apply removelast_last. Qed.

Lemma directories_app dir rest :
  rest ≠ [] → directories (dir ++ rest) = dir ++ directories rest.
Proof. apply removelast_app. Qed.

Lemma filter_none {A} (f : A → bool) (l : list A) :
  (∀ x, x ∈ l → f x = false) → List.filter f l = [].
Proof.
  induction l as [|x l IH]; [done|]. intros H. simpl.
  rewrite (H x) by left. apply IH. intros y Hy. apply H. by right.
Qed.

Lemma scanEntries_file self dir name rest files :
  Sitemap.scanEntries self dir (Sitemap.File name :: rest) files
  = Sitemap.scanEntries self dir rest
      (if JS.endsWith name ".html"
          && negb (JS.arrayIncludes Sitemap.SKIP_FILES name)
       then files ++ [dir ++ [name]] else files).
Proof.
  simpl. destruct (JS.endsWith name ".html"); [|done].
  by destruct (JS.arrayIncludes Sitemap.SKIP_FILES name).
Qed.

Lemma scanEntries_dir self dir name content rest files :
  Sitemap.scanEntries self dir (Sitemap.Dir name content :: rest) files
  = if JS.arrayIncludes Sitemap.SKIP_DIRS name
    then Sitemap.scanEntries self dir rest files
    else match self (dir ++ [name]) content with
         | Sitemap.Resolved sub =>
             Sitemap.scanEntries self dir rest (files ++ sub)
         | Sitemap.Rejected e => Sitemap.Rejected e
         end.
Proof. simpl. by destruct (JS.arrayIncludes Sitemap.SKIP_DIRS name). Qed.

Lemma rejectsBelow_cons entry rest e :
  rejectsBelow (Sitemap.Lists (entry :: rest)) e ↔
  (∃ name content, entry = Sitemap.Dir name content ∧
     (name ∉ Sitemap.SKIP_DIRS) ∧ rejectsBelow content e)
  ∨ rejectsBelow (Sitemap.Lists rest) e.
Proof.
  split.
  - inversion 1 as [|? name content ? Hin Hskip Hrej]; subst.
    apply elem_of_cons in Hin as [<-|Hin]; [left; eauto|].
    right. by econstructor.
  - intros [(name & content & -> & Hskip & Hrej)|Hrest].
    + econstructor; [left|done..].
    + inversion Hrest; subst. econstructor; [by right|done..].
Qed.

Lemma rejectsBelow_nil e : ¬ rejectsBelow (Sitemap.Lists []) e.
Proof. inversion 1 as [|???? Hin]; subst. by apply elem_of_nil in Hin. Qed.

Lemma filesOfEntries_cons self dir entry rest :
  filesOfEntries self dir (entry :: rest)
  = match entry with
    | Sitemap.File name => [dir ++ [name]]
    | Sitemap.Other _ => []
    | Sitemap.Dir name content => self (dir ++ [name]) content
    end ++ filesOfEntries self dir rest.
Proof. done. Qed.

(** Every file found below [dir] has a path that goes on from [dir]. *)
Lemma regularFiles_below r :
  ∀ dir q, q ∈ regularFiles dir r → ∃ rest, rest ≠ [] ∧ q = dir ++ rest.
Proof.
  induction r as [e|entries IH] using readdir_induction; intros dir q;
    [by intros ?%elem_of_nil|].
  simpl. induction IH as [|entry rest Hentry _ IHrest];
    [by intros ?%elem_of_nil|].
  rewrite filesOfEntries_cons, elem_of_app.
  intros [Hq|Hq]; [|by apply IHrest].
  destruct entry as [name|name|name content]; simpl in Hentry.
  - apply list_elem_of_singleton in Hq as ->. by exists [name].
  - by apply elem_of_nil in Hq.
  - apply Hentry in Hq as (rest' & Hne & ->).
    exists (name :: rest'). by rewrite <- app_assoc.
Qed.

Lemma listed_file dir name :
  Forall (λ d, d ∉ Sitemap.SKIP_DIRS) dir →
  listed (dir ++ [name])
  = JS.endsWith name ".html" && negb (JS.arrayIncludes Sitemap.SKIP_FILES name).
Proof.
  intros Hdir. unfold listed, isHtml, isSkipFile, inSkipDir.
  rewrite fileName_snoc, directories_snoc, arrayIncludes_spec.
  rewrite (bool_decide_eq_false_2 (Exists _ dir)); [by rewrite andb_true_r|].
  rewrite Exists_exists. intros (d & Hd & Hskip).
  rewrite Forall_forall in Hdir. by apply (Hdir d).
Qed.

Lemma listed_in_skip_dir dir name content :
  name ∈ Sitemap.SKIP_DIRS →
  List.filter listed (regularFiles (dir ++ [name]) content) = [].
Proof.
  intros Hskip. apply filter_none. intros q Hq.
  apply regularFiles_below in Hq as (rest & Hne & ->).
  unfold listed, inSkipDir. rewrite directories_app by done.
  rewrite (bool_decide_eq_true_2 (Exists _ _)); [by rewrite andb_false_r|].
  rewrite Exists_exists. exists name. split; [|done].
  rewrite !elem_of_app, list_elem_of_singleton. auto.
Qed.

Lemma getHtmlFiles_outcome r :
  ∀ dir, Forall (λ d, d ∉ Sitemap.SKIP_DIRS) dir → walkOutcome dir r.
Proof.
  induction r as [e|entries IH] using readdir_induction; intros dir Hdir.
  { left. exists e. split; [done|constructor]. }
  unfold walkOutcome. simpl.
  cut (∀ files,
    (∃ e, Sitemap.scanEntries Sitemap.getHtmlFiles dir entries files
            = Sitemap.Rejected e ∧ rejectsBelow (Sitemap.Lists entries) e)
    ∨ (Sitemap.scanEntries Sitemap.getHtmlFiles dir entries files
         = Sitemap.Resolved
             (files ++ List.filter listed
                         (filesOfEntries regularFiles dir entries))
       ∧ ∀ e, ¬ rejectsBelow (Sitemap.Lists entries) e)).
  { intros H. apply (H []). }
  induction IH as [|entry rest Hentry _ IHrest]; intros files.
  { right. split; [simpl; by rewrite app_nil_r|apply rejectsBelow_nil]. }
  destruct entry as [name|name|name content].
  - rewrite scanEntries_file, filesOfEntries_cons, List.filter_app.
    simpl List.filter. rewrite listed_file by done.
    destruct (IHrest (if JS.endsWith name ".html"
                         && negb (JS.arrayIncludes Sitemap.SKIP_FILES name)
                      then files ++ [dir ++ [name]] else files))
      as [(e & -> & Hrej)|[-> Hno]].
    + left. exists e. split; [done|]. apply rejectsBelow_cons. by right.
    + right. split.
      * by destruct (_ && _); rewrite <- ?app_assoc.
      * intros e [(? & ? & ? & _)|?]%rejectsBelow_cons; [done|].
        by apply (Hno e).
  - simpl. destruct (IHrest files) as [(e & -> & Hrej)|[-> Hno]].
    + left. exists e. split; [done|]. apply rejectsBelow_cons. by right.
    + right. split; [done|].
      intros e [(? & ? & ? & _)|?]%rejectsBelow_cons; [done|].
      by apply (Hno e).
  - rewrite scanEntries_dir, arrayIncludes_spec, filesOfEntries_cons.
    rewrite List.filter_app. simpl in Hentry. case_bool_decide as Hskip.
    + rewrite listed_in_skip_dir by done.
      destruct (IHrest files) as [(e & -> & Hrej)|[-> Hno]].
      * left. exists e. split; [done|]. apply rejectsBelow_cons. by right.
      * right. split; [done|].
        intros e [(? & ? & ? & ? & _)|?]%rejectsBelow_cons;
          [by simplify_eq|].
        by apply (Hno e).
    + destruct (Hentry (dir ++ [name])) as [(e & -> & Hrej)|[-> Hsub]].
      { apply Forall_app. split; [done|]. by apply Forall_singleton. }
      * left. exists e. split; [done|]. apply rejectsBelow_cons.
        left. eauto.
      * destruct (IHrest (files ++ List.filter listed
                            (regularFiles (dir ++ [name]) content)))
          as [(e & -> & Hrej)|[-> Hno]].
        -- left. exists e. split; [done|]. apply rejectsBelow_cons. by right.
        -- right. split; [by rewrite <- app_assoc|].
           intros e [(? & ? & ? & _ & ?)|?]%rejectsBelow_cons.
           ++ simplify_eq. by apply (Hsub e).
           ++ by apply (Hno e).
Qed.

(** ** The sitemap generator: distinct files, distinct URL paths *)

Lemma split_nonempty c s : JS.split c s ≠ [].
Proof.
  destruct s as [|a s]; simpl; [done|].
  destruct (Ascii.eqb a c); [done|]. by destruct (JS.split c s).
Qed.

Lemma split_append c a b :
  JS.split c (a +:+ String c b) = JS.split c a ++ JS.split c b.
Proof.
  induction a as [|x a IH]; simpl.
  - by rewrite Ascii.eqb_refl.
  - destruct (Ascii.eqb x c); rewrite IH; [done|].
    pose proof (split_nonempty c a). by destruct (JS.split c a).
Qed.

Lemma split_absent c s :
  JS.includes s (String c "") = false → JS.split c s = [s].
Proof.
  induction s as [|a s IH]; [done|].
  intros [Hne Hs]%includes_char_cons. simpl.
  apply Ascii.eqb_neq in Hne. rewrite Hne. by rewrite IH.
Qed.

Lemma split_concat (l : list string) :
  l ≠ [] → Forall (λ n, JS.includes n "/" = false) l →
  JS.split "/" (String.concat "/" l) = l.
Proof.
  intros Hl Hall. induction Hall as [|n l Hn Hall IH]; [done|].
  destruct l as [|m l]; [by apply split_absent|].
  rewrite concat_cons.
  change (n +:+ "/" +:+ String.concat "/" (m :: l))
    with (n +:+ String "/" (String.concat "/" (m :: l))).
  rewrite split_append, split_absent, IH by done. done.
Qed.

Lemma concat_inj (p q : list string) :
  p ≠ [] → q ≠ [] →
  Forall (λ n, JS.includes n "/" = false) p →
  Forall (λ n, JS.includes n "/" = false) q →
  String.concat "/" p = String.concat "/" q → p = q.
Proof.
  intros Hp Hq Hpf Hqf Heq. apply (f_equal (JS.split "/")) in Heq.
  by rewrite !split_concat in Heq.
Qed.

Lemma plainName_slashFree (p : list string) :
  Forall plainName p → Forall (λ n, JS.includes n "/" = false) p.
Proof. intros H. eapply Forall_impl; [exact H|]. by intros n (_ & ? & _). Qed.

Lemma path_snoc (p : list string) :
  p ≠ [] → p = directories p ++ [fileName p].
Proof. intros Hp. by apply app_removelast_last. Qed.

Lemma toUrlPath_plain (p : list string) :
  p ≠ [] → Forall plainName p →
  Sitemap.toUrlPath p = "/" +:+ String.concat "/" (urlSegments p).
Proof.
  intros Hp Hplain. rewrite (path_snoc p Hp) in Hplain |- *.
  set (dir := directories p) in *. set (n := fileName p) in *.
  unfold urlSegments. rewrite fileName_snoc, directories_snoc.
  apply Forall_app in Hplain as [Hdir Hn].
  destruct (String.eqb_spec n "index.html") as [->|Hne].
  - destruct (decide (dir = [])) as [->|Hdne]; [done|].
    rewrite toUrlPath_index_below by done.
    by rewrite concat_snoc, append_nil_r.
  - assert (Forall plainName (dir ++ [n])) as Hall by by apply Forall_app.
    assert (dir ++ [n] ≠ []) as Hnil by by destruct dir.
    unfold Sitemap.toUrlPath, Sitemap.path_relative_to_root.
    rewrite replaceChar_concat_plain by done.
    set (rel := String.concat "/" (dir ++ [n])).
    assert (JS.split "/" rel = dir ++ [n]) as Hsplit.
    { by apply split_concat, plainName_slashFree. }
    assert (String.eqb rel "index.html" = false) as ->.
    { apply String.eqb_neq. intros Hrel. rewrite Hrel in Hsplit.
      destruct dir as [|? [|??]]; simplify_eq/=. }
    assert (JS.endsWith rel "/index.html" = false) as ->.
    { apply not_true_iff_false. intros [a Ha]%endsWith_spec.
      rewrite Ha in Hsplit.
      change (a +:+ "/index.html") with (a +:+ String "/" "index.html")
        in Hsplit.
      rewrite split_append in Hsplit.
      change (JS.split "/" "index.html") with ["index.html"] in Hsplit.
      by apply app_inj_tail in Hsplit as [_ ?]. }
    rewrite <- (append_nil_r rel) at 1. unfold rel.
    by rewrite startsWith_concat_plain.
Qed.

Lemma toUrlPath_inj (p q : list string) :
  Forall plainName p → Forall plainName q →
  isHtml p = true → isHtml q = true →
  Sitemap.toUrlPath p = Sitemap.toUrlPath q → p = q.
Proof.
  intros Hp Hq Hhp Hhq Heq.
  assert (p ≠ []) as Hpn by (by intros ->).
  assert (q ≠ []) as Hqn by (by intros ->).
  rewrite !toUrlPath_plain in Heq by done.
  injection Heq as Heq. apply concat_inj in Heq.
  - unfold urlSegments in Heq.
    destruct (String.eqb_spec (fileName p) "index.html") as [Hip|Hip],
      (String.eqb_spec (fileName q) "index.html") as [Hiq|Hiq].
    + apply app_inj_tail in Heq as [Hd _].
      rewrite (path_snoc p), (path_snoc q) by done. congruence.
    + unfold isHtml in Hhq. by rewrite <- Heq, fileName_snoc in Hhq.
    + unfold isHtml in Hhp. by rewrite Heq, fileName_snoc in Hhp.
    + done.
  - unfold urlSegments. destruct (String.eqb _ _); [|done].
    by destruct (directories p).
  - unfold urlSegments. destruct (String.eqb _ _); [|done].
    by destruct (directories q).
  - apply plainName_slashFree in Hp. unfold urlSegments.
    destruct (String.eqb _ _); [|done].
    rewrite (path_snoc p Hpn) in Hp. apply Forall_app in Hp as [Hd _].
    apply Forall_app. split; [done|]. by apply Forall_singleton.
  - apply plainName_slashFree in Hq. unfold urlSegments.
    destruct (String.eqb _ _); [|done].
    rewrite (path_snoc q Hqn) in Hq. apply Forall_app in Hq as [Hd _].
    apply Forall_app. split; [done|]. by apply Forall_singleton.
Qed.

(** ** The sitemap generator: a run *)

Lemma toUrlPath_truthy f : JS.truthy (Sitemap.toUrlPath f) = true.
Proof.
  unfold Sitemap.toUrlPath.
  destruct (String.eqb _ "index.html"); [done|].
  destruct (JS.startsWith _ "/") eqn:Hs; [|done].
  apply prefix_spec in Hs as [b ->]. done.
Qed.

Lemma filter_all {A} (P : A → Prop) `{!∀ x, Decision (P x)} (l : list A) :
  Forall P l → filter P l = l.
Proof.
  induction 1 as [|x l Hx _ IH]; [done|].
  by rewrite filter_cons_True, IH.
Qed.

Lemma substring_all s : String.substring 0 (String.length s) s = s.
Proof. induction s as [|a s IH]; simpl; congruence. Qed.

Lemma urlPath_entry p now cf pr :
  Sitemap.urlPath (Sitemap.Url (Sitemap.BASE_URL +:+ p) now cf pr) = p.
Proof.
  unfold Sitemap.urlPath. simpl. rewrite Nat.sub_0_r. apply substring_all.
Qed.

(** The paths of the entries, before they are sorted. *)
Lemma buildUrls_paths now files :
  Sitemap.urlPath <$> Sitemap.buildUrls now files
  = Sitemap.sort (Sitemap.toUrlPath <$> files).
Proof.
  unfold Sitemap.buildUrls. rewrite filter_all.
  - rewrite <- list_fmap_compose. rewrite <- (list_fmap_id (Sitemap.sort _)) at 2.
    apply list_fmap_ext. intros _ p _. apply urlPath_entry.
  - apply Forall_fmap, Forall_true. intros f. simpl.
    rewrite toUrlPath_truthy. done.
Qed.

Lemma buildUrls_locs now files :
  Sitemap.loc <$> Sitemap.buildUrls now files
  = String.append Sitemap.BASE_URL
      <$> Sitemap.sort (Sitemap.toUrlPath <$> files).
Proof.
  unfold Sitemap.buildUrls. rewrite filter_all.
  - by rewrite <- list_fmap_compose.
  - apply Forall_fmap, Forall_true. intros f. simpl.
    rewrite toUrlPath_truthy. done.
Qed.

(** The two ways a run can go. *)
Lemma main_outcome w :
  (∃ e, fsError w e ∧
     Sitemap.main w
     = Sitemap.Outcome 1 [] [("Error generating sitemap:", e)] None None)
  ∨ ((∀ e, ¬ fsError w e) ∧
     let urls :=
       Sitemap.buildUrls (Sitemap.w_now w)
         (List.filter listed (regularFiles [] (Sitemap.w_root w))) in
     Sitemap.main w
     = Sitemap.Outcome 0
         ["Generated sitemap.xml with " +:+ pretty (List.length urls)
            +:+ " URLs."]
         []
         (Some (["sitemap.xml"], JS.trim (Sitemap.renderXml urls) +:+ Sitemap.nl))
         (Some urls)).
Proof.
  unfold Sitemap.main, Sitemap.generate, Sitemap.writeFile, fsError.
  destruct (getHtmlFiles_outcome (Sitemap.w_root w) [])
    as [(e & -> & Hrej)|[-> Hno]]; [done|by left; eauto|].
  simpl. destruct (Sitemap.w_write w) as [e|] eqn:Hw; simpl.
  - left. eauto.
  - right. split; [|done]. intros e [?|?]; [by apply (Hno e)|done].
Qed.

(** The sorted array does not depend on the algorithm: a list in ascending
    order with the elements of [l] is [sort l]. *)
Lemma sort_unique (l l' : list string) :
  Sorted String.le l' → l' ≡ₚ l → l' = Sitemap.sort l.
Proof.
  intros Hs Hp. apply (Sorted_unique String.le); [done| |].
  - apply Sorted_merge_sort, _.
  - unfold Sitemap.sort. by rewrite merge_sort_Permutation.
Qed.

Lemma Sorted_by {A B} (R : relation B) (f : A → B) (l : list A) :
  Sorted R (f <$> l) → Sorted (λ a b, R (f a) (f b)) l.
Proof.
  induction l as [|a l IH]; [constructor|].
  rewrite fmap_cons. inversion 1 as [|?? Hs Hhd]; subst.
  constructor; [by apply IH|].
  destruct l; [constructor|]. inversion Hhd; subst. by constructor.
Qed.

Lemma walk_resolved r files :
  Sitemap.getHtmlFiles [] r = Sitemap.Resolved files →
  ∀ e, ¬ rejectsBelow r e.
Proof.
  intros Hfiles.
  destruct (getHtmlFiles_outcome r []) as [(e & He & _)|[_ Hno]];
    [done|congruence|done].
Qed.

Lemma walk_rejected r e :
  Sitemap.getHtmlFiles [] r = Sitemap.Rejected e → rejectsBelow r e.
Proof.
  intros He.
  destruct (getHtmlFiles_outcome r []) as [(e' & He' & Hrej)|[? _]];
    [done|congruence..].
Qed.

(** C2: the entries of the sitemap that a run writes are in ascending order
    of their URL paths, each path at most the one after it. *)
Theorem sitemap_sorted (w : Sitemap.world) (urls : list Sitemap.url) :
  Sitemap.entries (Sitemap.main w) = Some urls →
  Sorted (λ a b, String.le (Sitemap.urlPath a) (Sitemap.urlPath b)) urls ∧
  ∃ file,
    Sitemap.written (Sitemap.main w)
    = Some (file, JS.trim (Sitemap.renderXml urls) +:+ Sitemap.nl).
Proof.
  destruct (main_outcome w) as [(e & _ & ->)|[_ ->]]; simpl; [done|].
  intros [= <-]. split; [|eauto].
  apply Sorted_by. rewrite buildUrls_paths.
  apply Sorted_merge_sort, _.
Qed.

Lemma sitemap_sorted_witness :
  Sorted (λ a b, String.le (Sitemap.urlPath a) (Sitemap.urlPath b))
    (Sitemap.buildUrls "2026-01-01"
       [["services"; "index.html"]; ["index.html"]; ["about.html"]]).
Proof.
  apply (sitemap_sorted
           (Sitemap.World
              (Sitemap.Lists
                 [Sitemap.Dir "services"
                    (Sitemap.Lists [Sitemap.File "index.html"]);
                  Sitemap.File "index.html";
                  Sitemap.File "about.html"])
              "2026-01-01" None)).
  vm_compute. reflexivity.
Defined.

(** C8: when reading a directory or writing the file fails, the run ends
    with exit status 1, has logged the error and has written nothing; the
    sitemap file is written only in a run without such an error, and in
    every such run. *)
Theorem fs_error_aborts (w : Sitemap.world) :
  (∀ e, fsError w e →
     Sitemap.exit_code (Sitemap.main w) = 1 ∧
     Sitemap.written (Sitemap.main w) = None ∧
     ∃ e', fsError w e' ∧
       Sitemap.stderr (Sitemap.main w) = [("Error generating sitemap:", e')]) ∧
  (is_Some (Sitemap.written (Sitemap.main w)) → ∀ e, ¬ fsError w e) ∧
  ((∀ e, ¬ fsError w e) →
     Sitemap.exit_code (Sitemap.main w) = 0 ∧
     is_Some (Sitemap.written (Sitemap.main w))).
Proof.
  destruct (main_outcome w) as [(e & He & ->)|[Hno ->]]; simpl.
  - split; [eauto|]. split; [by intros [? ?]|].
    intros Hno. by destruct (Hno e).
  - split; [|by eauto]. intros e He. by destruct (Hno e).
Qed.

Lemma fs_error_aborts_witness :
  Sitemap.exit_code
    (Sitemap.main
       (Sitemap.World
          (Sitemap.Lists
             [Sitemap.File "index.html";
              Sitemap.Dir "blog" (Sitemap.Rejects "EACCES")])
          "2026-01-01" None)) = 1 ∧
  is_Some
    (Sitemap.written
       (Sitemap.main
          (Sitemap.World
             (Sitemap.Lists
                [Sitemap.File "index.html";
                 Sitemap.Dir "images" (Sitemap.Rejects "EACCES")])
             "2026-01-01" None))).
Proof.
  split.
  - apply (proj1 (fs_error_aborts _) "EACCES").
    left. apply walk_rejected. reflexivity.
  - apply (proj2 (proj2 (fs_error_aborts _))).
    intros e [H|H]; [|discriminate]. revert e H.
    eapply walk_resolved. reflexivity.
Defined.

(** C3: in a run without a file-system error the entries of the sitemap
    match, one to one, the HTML files below the root that are neither in
    the skip list of files nor inside a directory of the skip list of
    directories; no other file has an entry. *)
Theorem one_entry_per_listed_file (w : Sitemap.world) :
  (∀ e, ¬ fsError w e) →
  ∃ urls,
    Sitemap.entries (Sitemap.main w) = Some urls ∧
    Sitemap.loc <$> urls
      ≡ₚ (λ f, Sitemap.BASE_URL +:+ Sitemap.toUrlPath f)
           <$> List.filter listed (regularFiles [] (Sitemap.w_root w)) ∧
    (∀ u, u ∈ urls →
      ∃ f, f ∈ regularFiles [] (Sitemap.w_root w) ∧ listed f = true ∧
           Sitemap.loc u = Sitemap.BASE_URL +:+ Sitemap.toUrlPath f) ∧
    (NoDup (regularFiles [] (Sitemap.w_root w)) →
     Forall (Forall plainName) (regularFiles [] (Sitemap.w_root w)) →
     NoDup (Sitemap.loc <$> urls)).
Proof.
  intros Hno.
  destruct (main_outcome w) as [(e & He & _)|[_ ->]]; [by destruct (Hno e)|].
  simpl. eexists. split; [done|].
  assert (Sitemap.loc
            <$> Sitemap.buildUrls (Sitemap.w_now w)
                  (List.filter listed (regularFiles [] (Sitemap.w_root w)))
          ≡ₚ (λ f, Sitemap.BASE_URL +:+ Sitemap.toUrlPath f)
               <$> List.filter listed (regularFiles [] (Sitemap.w_root w)))
    as Hperm.
  { rewrite buildUrls_locs. unfold Sitemap.sort.
    rewrite merge_sort_Permutation. by rewrite <- list_fmap_compose. }
  split; [done|]. split.
  - intros u Hu.
    apply (list_elem_of_fmap_2 Sitemap.loc) in Hu. rewrite Hperm in Hu.
    apply list_elem_of_fmap in Hu as (f & Hf & Hin).
    apply list_elem_of_In, filter_In in Hin as [Hin Hlisted].
    exists f. by rewrite <- list_elem_of_In in Hin.
  - intros Hnodup Hplain. rewrite Hperm.
    apply NoDup_fmap_2_strong;
      [|by apply NoDup_ListNoDup, List.NoDup_filter, NoDup_ListNoDup].
    intros f g [Hf Hlf]%list_elem_of_In%filter_In
      [Hg Hlg]%list_elem_of_In%filter_In Heq.
    apply (inj (String.append Sitemap.BASE_URL)) in Heq.
    rewrite Forall_forall in Hplain.
    unfold listed in Hlf, Hlg.
    apply andb_true_iff in Hlf as [[Hhf _]%andb_true_iff _].
    apply andb_true_iff in Hlg as [[Hhg _]%andb_true_iff _].
    apply toUrlPath_inj; try done; apply Hplain; by apply list_elem_of_In.
Qed.

Lemma one_entry_per_listed_file_witness :
  ∃ urls,
    Sitemap.loc <$> urls
      ≡ₚ ["https://onlinetranslation.ae/";
          "https://onlinetranslation.ae/about/team.html"] ∧
    NoDup (Sitemap.loc <$> urls).
Proof.
  destruct (one_entry_per_listed_file
              (Sitemap.World
                 (Sitemap.Lists
                    [Sitemap.File "index.html";
                     Sitemap.File "404.html";
                     Sitemap.File "logo.png";
                     Sitemap.Dir "images"
                       (Sitemap.Lists [Sitemap.File "gallery.html"]);
                     Sitemap.Dir "about"
                       (Sitemap.Lists [Sitemap.File "team.html"])])
                 "2026-01-01" None))
    as (urls & _ & Hperm & _ & Hnodup).
  - intros e [H|H]; [|discriminate]. revert e H.
    eapply walk_resolved. reflexivity.
  - exists urls. split; [exact Hperm|]. apply Hnodup.
    + apply (bool_decide_unpack _). vm_compute. exact I.
    + repeat constructor; discriminate.
Defined.

(** ** The image optimizer: loading *)

Section Loading.

Variable resolveURL : string → string.

#[local] Abbreviation loadImage := (Images.loadImage resolveURL).
#[local] Abbreviation handle := (Images.handle resolveURL).
#[local] Abbreviation steps := (Images.steps resolveURL).

Lemma fold_invariant {A B} (I : A → Prop) (f : A → B → A) (l : list B) a :
  (∀ a x, x ∈ l → I a → I (f a x)) → I a → I (foldl f a l).
Proof.
  revert a. induction l as [|x l IH]; intros a Hf Ha; [done|].
  simpl. apply IH.
  - intros a' y Hy. apply Hf. by right.
  - apply Hf; [left|done].
Qed.

(** What [loadImage] does: it starts one load, of the source as optimized,
    when the source is not empty and differs from [img.src]; it does nothing
    otherwise. *)
Lemma loadImage_cases pg id :
  loadImage pg id = pg ∨
  ∃ i, Images.imgs pg !! id = Some i ∧
    JS.truthy (Images.sourceOf resolveURL i) = true ∧
    Images.sourceOf resolveURL i ≠ Images.get_src resolveURL i ∧
    loadImage pg id
    = Images.Page (Images.webpSupported pg) (Images.imageObserver pg)
        (Images.mutationObserver pg) (Images.imgs pg)
        (Images.pending pg
           ++ [Images.Temp id (Images.sourceOf resolveURL i)
                 (Images.dataset_srcset i)
                 (Images.getOptimizedSrc (Images.webpSupported pg)
                    (Images.sourceOf resolveURL i))])
        (Images.requested pg
           ++ [(id, Images.getOptimizedSrc (Images.webpSupported pg)
                      (Images.sourceOf resolveURL i))])
        (Images.timers pg) (Images.body pg).
Proof.
  unfold Images.loadImage. destruct (Images.imgs pg !! id) as [i|]; [|by left].
  destruct (JS.truthy _) eqn:Ht; [|by left].
  destruct (String.eqb _ _) eqn:He; [by left|].
  right. exists i. apply String.eqb_neq in He. done.
Qed.

(** A load is in nobody's way: the images and the observer stay as they
    are, and the loads of another image too. *)
Lemma loadImage_frame pg tgt :
  Images.imgs (loadImage pg tgt) = Images.imgs pg ∧
  Images.imageObserver (loadImage pg tgt) = Images.imageObserver pg ∧
  ∀ id, tgt ≠ id →
    Images.loadsOf (loadImage pg tgt) id = Images.loadsOf pg id.
Proof.
  destruct (loadImage_cases pg tgt) as [->|(i & _ & _ & _ & ->)]; [done|].
  simpl. repeat split. intros id Hne. unfold Images.loadsOf. simpl.
  rewrite List.filter_app. simpl. rewrite bool_decide_eq_false_2 by done.
  by rewrite app_nil_r.
Qed.

Lemma isObserved_false pg id :
  Images.isObserved pg id = false ↔ ¬ Images.observed pg id.
Proof.
  unfold Images.isObserved, Images.observed.
  destruct (Images.imageObserver pg) as [o|].
  - rewrite bool_decide_eq_false. split.
    + intros Hid (o' & [= <-] & Hin). done.
    + intros Hno Hin. apply Hno. eauto.
  - split; [|done]. by intros _ (o & ? & _).
Qed.

Lemma settled_quiet pg pg' id :
  quiet pg pg' → Images.isLoaded pg id = true →
  ¬ Images.observed pg' id →
  settled pg' id ∧ Images.loadsOf pg' id = Images.loadsOf pg id.
Proof.
  intros [Hi Hr] Hl Ho. unfold settled, Images.isLoaded, Images.loadsOf.
  by rewrite Hi, Hr.
Qed.

Lemma observed_observe pg x id :
  Images.observed (Images.observe pg x) id → x = id ∨ Images.observed pg id.
Proof.
  unfold Images.observed, Images.observe. simpl.
  intros (o & Ho & Hin). destruct (Images.imageObserver pg) as [o'|];
    simplify_eq/=.
  apply elem_of_union in Hin as [Hin|Hin]; [right; eauto|left].
  by apply elem_of_singleton in Hin.
Qed.

Lemma observed_unobserve pg x id :
  Images.observed (Images.unobserve pg x) id → Images.observed pg id.
Proof.
  unfold Images.observed, Images.unobserve. simpl.
  intros (o & Ho & Hin). destruct (Images.imageObserver pg) as [o'|];
    simplify_eq/=.
  apply elem_of_difference in Hin as [Hin _]. eauto.
Qed.

(** The guard before [observe] keeps a loaded image out. *)
Lemma observe_guarded pg0 id x (b : bool) pg :
  Images.isLoaded pg0 id = true →
  quiet pg0 pg ∧ ¬ Images.observed pg id →
  let pg' := if negb (Images.isLoaded pg x) && b
             then Images.observe pg x else pg in
  quiet pg0 pg' ∧ ¬ Images.observed pg' id.
Proof.
  intros Hl [[Hi Hr] Ho]. simpl.
  destruct (negb _ && b) eqn:Hg; [|done].
  split; [done|]. intros [->|?]%observed_observe; [|done].
  apply andb_true_iff in Hg as [Hg _].
  unfold Images.isLoaded in Hg, Hl. rewrite Hi, Hl in Hg. done.
Qed.

Lemma onAddedNode_settled pg0 id n pg :
  Images.isLoaded pg0 id = true →
  quiet pg0 pg ∧ ¬ Images.observed pg id →
  quiet pg0 (Images.onAddedNode pg n)
  ∧ ¬ Images.observed (Images.onAddedNode pg n) id.
Proof.
  intros Hl Hpg. unfold Images.onAddedNode.
  destruct (Images.isElement n); [|done].
  match goal with
  | |- context [foldl ?f pg ?l] =>
      assert (quiet pg0 (foldl f pg l)
              ∧ ¬ Images.observed (foldl f pg l) id) as Hfold
  end.
  { apply (fold_invariant
             (λ pg, quiet pg0 pg ∧ ¬ Images.observed pg id)); [|done].
    intros pg' x _ Hpg'. by apply (observe_guarded pg0 id x). }
  destruct (Images.asImg n) as [x|]; [|done].
  destruct (Images.matches _ _ x); [|done].
  by apply (observe_guarded pg0 id x).
Qed.

Lemma onMutations_settled pg id mutations :
  settled pg id →
  settled (Images.onMutations pg mutations) id ∧
  Images.loadsOf (Images.onMutations pg mutations) id = Images.loadsOf pg id.
Proof.
  intros [Hl Ho].
  cut (quiet pg (Images.onMutations pg mutations)
       ∧ ¬ Images.observed (Images.onMutations pg mutations) id).
  { intros [? ?]. by apply settled_quiet. }
  unfold Images.onMutations.
  apply (fold_invariant (λ pg', quiet pg pg' ∧ ¬ Images.observed pg' id));
    [|done].
  intros pg' addedNodes _ Hpg'.
  apply (fold_invariant (λ pg', quiet pg pg' ∧ ¬ Images.observed pg' id));
    [|done].
  intros pg'' n _ Hpg''. by apply onAddedNode_settled.
Qed.

Lemma onIntersection_settled pg id entries :
  Forall (λ entry : nat * bool, fst entry ≠ id) entries →
  settled pg id →
  settled (Images.onIntersection resolveURL pg entries) id ∧
  Images.loadsOf (Images.onIntersection resolveURL pg entries) id
    = Images.loadsOf pg id.
Proof.
  intros Hentries Hs. unfold Images.onIntersection.
  apply (fold_invariant
           (λ pg', settled pg' id ∧ Images.loadsOf pg' id = Images.loadsOf pg id));
    [|done].
  intros pg' [tgt b] Hin [[Hl Ho] Hloads]. simpl.
  destruct b; [|done].
  rewrite Forall_forall in Hentries. specialize (Hentries _ Hin). simpl in Hentries.
  destruct (loadImage_frame pg' tgt) as (Hi & Hobs & Hreq).
  repeat split.
  - unfold Images.isLoaded in *. simpl. by rewrite Hi.
  - intros H%observed_unobserve. apply Ho.
    unfold Images.observed in *. by rewrite <- Hobs.
  - unfold Images.loadsOf in *. simpl. rewrite <- Hloads. by apply Hreq.
Qed.

Lemma isLoaded_alter (f : Images.img → Images.img) pg x id :
  (∀ i, Images.loaded i = true → Images.loaded (f i) = true) →
  Images.isLoaded pg id = true →
  Images.isLoaded (Images.set_imgs pg (alter f x (Images.imgs pg))) id = true.
Proof.
  intros Hf. unfold Images.isLoaded. simpl. rewrite lookup_alter.
  case_decide as Hx; [|done]. subst x.
  destruct (Images.imgs pg !! id); simpl; [apply Hf|done].
Qed.

Lemma onload_settled pg t id :
  settled pg id →
  settled (Images.onload pg t) id ∧
  Images.loadsOf (Images.onload pg t) id = Images.loadsOf pg id.
Proof.
  intros [Hl Ho]. split; [split|done]; [|done].
  unfold Images.onload.
  apply (isLoaded_alter _ pg (Images.t_img t) id); [|done].
  intros i Hi. unfold Images.loaded in *. simpl.
  by apply contains_add_other, contains_add_other.
Qed.

Lemma onerror_settled pg t id :
  settled pg id →
  settled (Images.onerror pg t) id ∧
  Images.loadsOf (Images.onerror pg t) id = Images.loadsOf pg id.
Proof.
  intros [Hl Ho]. split; [split|done]; [|done].
  apply isLoaded_alter; [|done].
  intros i Hi. unfold Images.loaded in *. simpl.
  by apply contains_add_other.
Qed.

Lemma onFadeTimeout_settled pg x id :
  settled pg id →
  settled (Images.onFadeTimeout pg x) id ∧
  Images.loadsOf (Images.onFadeTimeout pg x) id = Images.loadsOf pg id.
Proof.
  intros [Hl Ho]. split; [split|done]; [|done].
  apply isLoaded_alter; [|done].
  intros i Hi. unfold Images.loaded in *. simpl.
  by rewrite contains_remove_other.
Qed.

(** No event that the browser raises starts a load for a settled image, and
    the image stays settled. *)
Lemma handle_settled pg ev id :
  settled pg id → Images.raised ev → Images.enabled pg ev →
  settled (handle pg ev) id ∧
  Images.loadsOf (handle pg ev) id = Images.loadsOf pg id.
Proof.
  intros Hs Hraised Hen. destruct ev as [entries|mutations|k|k|k|x]; simpl.
  - destruct Hen as (o & Ho & Hall). apply onIntersection_settled; [|done].
    eapply Forall_impl; [exact Hall|]. intros [tgt b] Hin. simpl in *.
    intros ->. destruct Hs as [_ Hobs]. apply Hobs. by exists o.
  - by apply onMutations_settled.
  - destruct (Images.pending pg !! k) as [t|]; [|done].
    by apply (onload_settled (Images.set_pending pg _) t id).
  - destruct (Images.pending pg !! k) as [t|]; [|done].
    by apply (onerror_settled (Images.set_pending pg _) t id).
  - destruct (Images.timers pg !! k) as [x|]; [|done].
    by apply (onFadeTimeout_settled (Images.set_timers pg _) x id).
  - done.
Qed.

(** C9, as amended: an image that carries [loaded] and is no longer
    observed is not loaded again, whatever intersections, mutations, loads,
    failures and timeouts follow; and [loadImage] starts no load for an image
    whose source is its [src] already. *)
Theorem settled_image_not_reloaded
    (pg pg' : Images.page) (evs : list Images.event) (id : nat) :
  (Images.isLoaded pg id = true → Images.isObserved pg id = false →
   Forall Images.raised evs → steps pg evs pg' →
   Images.loadsOf pg' id = Images.loadsOf pg id ∧
   Images.isLoaded pg' id = true ∧ Images.isObserved pg' id = false) ∧
  (∀ i, Images.imgs pg !! id = Some i →
     Images.sourceOf resolveURL i = Images.get_src resolveURL i →
     loadImage pg id = pg).
Proof.
  split.
  - intros Hl Ho%isObserved_false Hraised Hsteps.
    cut (settled pg' id ∧ Images.loadsOf pg' id = Images.loadsOf pg id).
    { intros [[? ?%isObserved_false] ?]. done. }
    assert (settled pg id) as Hs by done. clear Hl Ho.
    induction Hsteps as [pg|pg ev evs pg' Hen _ IH]; [done|].
    apply Forall_cons in Hraised as [Hev Hevs].
    destruct (handle_settled pg ev id) as [Hs' Hloads]; [done..|].
    destruct (IH Hevs Hs') as [? ?]. split; [done|congruence].
  - intros i Hi Hsrc.
    destruct (loadImage_cases pg id) as [?|(i' & Hi' & _ & Hne & _)]; [done|].
    congruence.
Qed.

(** C6: when the load of the optimized source fails, the [src] of the image
    is set to the source that [loadImage] started from, the image carries
    [loaded], the failed load is over and no other load is started. *)
Theorem load_failure_falls_back (pg : Images.page) (id : nat) (i : Images.img) :
  Images.imgs pg !! id = Some i →
  JS.truthy (Images.sourceOf resolveURL i) = true →
  Images.sourceOf resolveURL i ≠ Images.get_src resolveURL i →
  ∃ t,
    Images.pending (loadImage pg id) = Images.pending pg ++ [t] ∧
    Images.t_optimizedSrc t
      = Images.getOptimizedSrc (Images.webpSupported pg)
          (Images.sourceOf resolveURL i) ∧
    ∀ pg' k i',
      Images.pending pg' !! k = Some t →
      Images.imgs pg' !! id = Some i' →
      (∃ i'', Images.imgs (handle pg' (Images.Error k)) !! id = Some i'' ∧
         Images.attr_src i'' = Some (Images.sourceOf resolveURL i) ∧
         Images.loaded i'' = true) ∧
      Images.requested (handle pg' (Images.Error k)) = Images.requested pg' ∧
      Images.pending (handle pg' (Images.Error k))
        = delete k (Images.pending pg').
Proof.
  intros Hi Ht Hne.
  destruct (loadImage_cases pg id) as [Hsame|(i0 & Hi0 & _ & _ & ->)].
  { unfold Images.loadImage in Hsame. rewrite Hi, Ht in Hsame.
    apply String.eqb_neq in Hne. rewrite Hne in Hsame. simpl in Hsame.
    apply (f_equal Images.pending) in Hsame. simpl in Hsame.
    apply (f_equal List.length) in Hsame. rewrite length_app in Hsame.
    simpl in Hsame. lia. }
  simplify_eq. eexists. split; [done|]. split; [done|].
  intros pg' k i' Hk Hi'. simpl. rewrite Hk. simpl.
  rewrite lookup_alter. case_decide; [|done]. rewrite Hi'. simpl.
  split; [|done]. eexists. split; [done|]. split; [done|].
  unfold Images.loaded. simpl. apply contains_add.
Qed.

End Loading.

(** C9, against the claim: on the page [heroPage] the image is seen by the
    observer and its load starts; the image is then added to the document
    anew, which puts it under observation again, its class [loaded] not being
    there yet; the load ends and the image carries [loaded]; the observer
    reports it once more, and a second load starts.  A call of [loadImage]
    on the loaded image starts a second load as well. *)
Lemma loaded_image_reloaded :
  let added := Images.Node true (Some 0) [] in
  let pg :=
    foldl (Images.handle id) heroPage
      [Images.Intersection [(0, true)]; Images.Mutations [[added]];
       Images.Load 0] in
  let pg' :=
    foldl (Images.handle id) heroPage
      [Images.Intersection [(0, true)]; Images.Load 0] in
  Images.steps id heroPage
    [Images.Intersection [(0, true)]; Images.Mutations [[added]];
     Images.Load 0] pg ∧
  Images.isLoaded pg 0 = true ∧
  Images.loadsOf pg 0 = [heroWebp] ∧
  Images.enabled pg (Images.Intersection [(0, true)]) ∧
  Images.loadsOf (Images.handle id pg (Images.Intersection [(0, true)])) 0
    = [heroWebp; heroWebp] ∧
  Images.isLoaded pg' 0 = true ∧
  Images.loadsOf pg' 0 = [heroWebp] ∧
  Images.loadsOf (Images.handle id pg' (Images.Call 0)) 0
    = [heroWebp; heroWebp].
Proof.
  intros added pg pg'. split; [|split; [|split; [|split]]].
  - repeat econstructor.
  - reflexivity.
  - reflexivity.
  - eexists. split; [reflexivity|]. repeat constructor.
  - repeat split.
Qed.

Lemma settled_image_not_reloaded_witness :
  let pg :=
    foldl (Images.handle id) heroPage
      [Images.Intersection [(0, true)]; Images.Load 0] in
  let pg' :=
    foldl (Images.handle id) pg
      [Images.Mutations [[Images.Node true (Some 0) []]];
       Images.FadeTimeout 0] in
  Images.loadsOf pg' 0 = Images.loadsOf pg 0 ∧
  Images.isLoaded pg' 0 = true ∧ Images.isObserved pg' 0 = false.
Proof.
  intros pg pg'.
  apply (proj1 (settled_image_not_reloaded id pg pg'
                  [Images.Mutations [[Images.Node true (Some 0) []]];
                   Images.FadeTimeout 0] 0)).
  - vm_compute. reflexivity.
  - vm_compute. reflexivity.
  - repeat constructor.
  - repeat econstructor.
Defined.

Lemma load_failure_falls_back_witness :
  ∃ t,
    Images.pending
      (Images.loadImage id
         (Images.Page (Some true) None false
            {[ 0 := Images.Img (Some heroJpg) None None None None [] ]}
            [] [] [] []) 0) = [t] ∧
    Images.t_optimizedSrc t = heroWebp.
Proof.
  destruct (load_failure_falls_back id
              (Images.Page (Some true) None false
                 {[ 0 := Images.Img (Some heroJpg) None None None None [] ]}
                 [] [] [] [])
              0 (Images.Img (Some heroJpg) None None None None []))
    as (t & Hpending & Hsrc & _).
  - reflexivity.
  - reflexivity.
  - discriminate.
  - exists t. split; [exact Hpending|exact Hsrc].
Defined.

(** C5: with WebP support detected the source ['photo.jpg'] resolves to
    ['photo.webp'], and without support to ['photo.jpg'] itself; so an image
    with [data-src] ['photo.jpg'] has, once [loadImage] has run and the load
    has ended, the one or the other as its [src]. *)
Theorem photo_jpg_resolves :
  Images.getOptimizedSrc (Some true) "photo.jpg" = "photo.webp" ∧
  Images.getOptimizedSrc (Some false) "photo.jpg" = "photo.jpg" ∧
  ∀ (resolveURL : string → string) (pg : Images.page) (id : nat)
    (i : Images.img),
    Images.imgs pg !! id = Some i →
    Images.dataset_src i = Some "photo.jpg" →
    Images.get_src resolveURL i ≠ "photo.jpg" →
    ∃ i',
      Images.imgs
        (Images.handle resolveURL (Images.loadImage resolveURL pg id)
           (Images.Load (List.length (Images.pending pg)))) !! id = Some i' ∧
      Images.attr_src i'
      = Some (if Images.supported (Images.webpSupported pg)
              then "photo.webp" else "photo.jpg").
Proof.
  split; [reflexivity|]. split; [reflexivity|].
  intros resolveURL pg id i Hi Hdata Hsrc.
  assert (Images.sourceOf resolveURL i = "photo.jpg") as Hsource.
  { unfold Images.sourceOf. by rewrite Hdata. }
  destruct (loadImage_cases resolveURL pg id)
    as [Hsame|(i0 & Hi0 & _ & _ & ->)].
  { unfold Images.loadImage in Hsame. rewrite Hi, Hsource in Hsame.
    apply not_eq_sym, String.eqb_neq in Hsrc. rewrite Hsrc in Hsame.
    simpl in Hsame. apply (f_equal Images.pending) in Hsame.
    apply (f_equal List.length) in Hsame. simpl in Hsame.
    rewrite length_app in Hsame. simpl in Hsame. lia. }
  simplify_eq. rewrite Hsource. simpl.
  rewrite list_lookup_middle by done. simpl.
  rewrite lookup_alter. case_decide; [|done]. rewrite Hi. simpl.
  eexists. split; [done|]. simpl.
  destruct (Images.webpSupported pg) as [[|]|]; done.
Qed.

Lemma photo_jpg_resolves_witness :
  ∃ i',
    Images.imgs
      (foldl (Images.handle id)
         (Images.Page (Some true) None false
            {[ 7 := Images.Img (Some "photo.jpg") None None None None [] ]}
            [] [] [] [])
         [Images.Call 7; Images.Load 0]) !! 7 = Some i' ∧
    Images.attr_src i' = Some "photo.webp".
Proof.
  apply (proj2 (proj2 photo_jpg_resolves) id
           (Images.Page (Some true) None false
              {[ 7 := Images.Img (Some "photo.jpg") None None None None [] ]}
              [] [] [] [])
           7 (Images.Img (Some "photo.jpg") None None None None []));
    [reflexivity|reflexivity|discriminate].
Defined.

(** * Further properties *)

(** ** The sitemap generator *)

Lemma toUrlPath_starts f : JS.startsWith (Sitemap.toUrlPath f) "/" = true.
Proof.
  unfold Sitemap.toUrlPath.
  destruct (String.eqb _ "index.html"); [done|].
  match goal with
  | |- context [negb (JS.startsWith ?r "/")] =>
      destruct (JS.startsWith r "/") eqn:Hs; [exact Hs|];
      apply prefix_spec; by exists r
  end.
Qed.

(** X1: every URL path that [toUrlPath] gives starts with a slash, and so
    every location of the sitemap is [BASE_URL], a slash and the rest. *)
Theorem locations_below_base (now : string) (files : list (list string)) :
  (∀ f, JS.startsWith (Sitemap.toUrlPath f) "/" = true) ∧
  Forall (λ u, ∃ rest, Sitemap.loc u = Sitemap.BASE_URL +:+ "/" +:+ rest)
         (Sitemap.buildUrls now files).
Proof.
  split; [apply toUrlPath_starts|].
  apply Forall_forall. intros u Hu.
  apply (list_elem_of_fmap_2 Sitemap.loc) in Hu.
  rewrite buildUrls_locs in Hu.
  apply list_elem_of_fmap in Hu as (p & -> & Hp).
  unfold Sitemap.sort in Hp. rewrite merge_sort_Permutation in Hp.
  apply list_elem_of_fmap in Hp as (f & -> & _).
  pose proof (toUrlPath_starts f) as [rest ->]%prefix_spec. by exists rest.
Qed.

(** X2: two HTML files whose names hold no separator have the same URL path
    only when they are the same file. *)
Theorem distinct_files_distinct_paths (p q : list string) :
  Forall plainName p → Forall plainName q →
  isHtml p = true → isHtml q = true →
  Sitemap.toUrlPath p = Sitemap.toUrlPath q → p = q.
Proof. apply toUrlPath_inj. Qed.

Lemma distinct_files_distinct_paths_witness :
  ["about"; "index.html"] = ["about"; "index.html"].
Proof.
  apply (distinct_files_distinct_paths
           ["about"; "index.html"] ["about"; "index.html"]);
    try reflexivity; repeat constructor; discriminate.
Defined.

(** X3: a file other than [index.html], with names that hold no separator,
    has its path below the root, after a slash, as its URL path. *)
Theorem toUrlPath_page (p : list string) :
  p ≠ [] → Forall plainName p → fileName p ≠ "index.html" →
  Sitemap.toUrlPath p = "/" +:+ String.concat "/" p.
Proof.
  intros Hp Hplain Hname. rewrite toUrlPath_plain by done.
  unfold urlSegments. apply String.eqb_neq in Hname. by rewrite Hname.
Qed.

Lemma toUrlPath_page_witness :
  Sitemap.toUrlPath ["services"; "legal"; "contracts.html"]
    = "/services/legal/contracts.html".
Proof.
  apply (toUrlPath_page ["services"; "legal"; "contracts.html"]);
    [discriminate|repeat constructor; discriminate|discriminate].
Defined.




(** X5: the priority [1.0] is that of the root path and of no other, and
    [getMeta] gives one of five pairs of change frequency and priority. *)
Theorem getMeta_range (p : string) :
  (Sitemap.m_priority (Sitemap.getMeta p) = "1.0" ↔ p = "/") ∧
  Sitemap.getMeta p
    ∈ [Sitemap.Meta "weekly" "1.0"; Sitemap.Meta "weekly" "0.9";
       Sitemap.Meta "monthly" "0.8"; Sitemap.Meta "monthly" "0.7";
       Sitemap.Meta "yearly" "0.3"; Sitemap.Meta "monthly" "0.6"].
Proof.
  unfold Sitemap.getMeta.
  destruct (String.eqb_spec p "/") as [->|Hne].
  { split; [done|]. left. }
  split.
  - split; [|done].
    by destruct (JS.includes p "/services/"), (JS.includes p "/personal/"),
      (JS.includes p "/legal/"), (JS.includes p "/locations/"),
      (JS.includes p "/industries/"), (JS.includes p "/resources/"),
      (JS.includes p "privacy"), (JS.includes p "terms").
  - destruct (JS.includes p "/services/"), (JS.includes p "/personal/"),
      (JS.includes p "/legal/"), (JS.includes p "/locations/"),
      (JS.includes p "/industries/"), (JS.includes p "/resources/"),
      (JS.includes p "privacy"), (JS.includes p "terms"); simpl;
      repeat first [apply list_elem_of_here | apply list_elem_of_further].
Qed.

Lemma scanEntries_skipped self dir name content content' before after :
  name ∈ Sitemap.SKIP_DIRS →
  ∀ files,
    Sitemap.scanEntries self dir
      (before ++ Sitemap.Dir name content :: after) files
    = Sitemap.scanEntries self dir
        (before ++ Sitemap.Dir name content' :: after) files.
Proof.
  intros Hskip. induction before as [|entry before IH]; intros files.
  - rewrite !app_nil_l, !scanEntries_dir, arrayIncludes_spec.
    by rewrite bool_decide_eq_true_2.
  - rewrite <- !app_comm_cons. destruct entry as [n|n|n c].
    + by rewrite !scanEntries_file.
    + apply IH.
    + rewrite !scanEntries_dir. destruct (JS.arrayIncludes _ n); [done|].
      by destruct (self _ c).
Qed.

(** X6: a directory of the skip list is not read: whatever it holds, and
    whether it can be read at all, the walk gives the same. *)
Theorem skipped_directory_not_read
    (dir : list string) (name : string) (content content' : Sitemap.readdir)
    (before after : list Sitemap.dirent) :
  name ∈ Sitemap.SKIP_DIRS →
  Sitemap.getHtmlFiles dir
    (Sitemap.Lists (before ++ Sitemap.Dir name content :: after))
  = Sitemap.getHtmlFiles dir
      (Sitemap.Lists (before ++ Sitemap.Dir name content' :: after)).
Proof. intros Hskip. simpl. by apply scanEntries_skipped. Qed.

Lemma skipped_directory_not_read_witness :
  Sitemap.getHtmlFiles []
    (Sitemap.Lists
       ([Sitemap.File "index.html"]
        ++ Sitemap.Dir "node_modules" (Sitemap.Rejects "EACCES")
        :: [Sitemap.File "about.html"]))
  = Sitemap.getHtmlFiles []
      (Sitemap.Lists
         ([Sitemap.File "index.html"]
          ++ Sitemap.Dir "node_modules"
               (Sitemap.Lists [Sitemap.File "readme.html"])
          :: [Sitemap.File "about.html"])).
Proof.
  apply (skipped_directory_not_read [] "node_modules").
  apply (bool_decide_unpack _). vm_compute. exact I.
Defined.

Lemma sort_permutation (l l' : list string) :
  l ≡ₚ l' → Sitemap.sort l = Sitemap.sort l'.
Proof.
  intros Hp. apply sort_unique; [apply Sorted_merge_sort, _|].
  unfold Sitemap.sort. by rewrite merge_sort_Permutation.
Qed.

Lemma buildUrls_permutation now (files files' : list (list string)) :
  files ≡ₚ files' → Sitemap.buildUrls now files = Sitemap.buildUrls now files'.
Proof.
  intros Hp. unfold Sitemap.buildUrls. f_equal.
  rewrite !filter_all.
  - apply sort_permutation. by rewrite Hp.
  - apply Forall_fmap, Forall_true. intros f. simpl.
    by rewrite toUrlPath_truthy.
  - apply Forall_fmap, Forall_true. intros f. simpl.
    by rewrite toUrlPath_truthy.
Qed.

(** X7: the run does not depend on the order in which the directories list
    their entries: two runs without file-system error, on the same date,
    that find the same files in whatever order, log and write the same. *)
Theorem listing_order_irrelevant (w w' : Sitemap.world) :
  Sitemap.w_now w = Sitemap.w_now w' →
  (∀ e, ¬ fsError w e) → (∀ e, ¬ fsError w' e) →
  List.filter listed (regularFiles [] (Sitemap.w_root w))
    ≡ₚ List.filter listed (regularFiles [] (Sitemap.w_root w')) →
  Sitemap.main w = Sitemap.main w'.
Proof.
  intros Hnow Hno Hno' Hp.
  destruct (main_outcome w) as [(e & He & _)|[_ ->]]; [by destruct (Hno e)|].
  destruct (main_outcome w') as [(e & He & _)|[_ ->]];
    [by destruct (Hno' e)|].
  simpl. rewrite <- Hnow. by rewrite (buildUrls_permutation _ _ _ Hp).
Qed.

Lemma listing_order_irrelevant_witness :
  Sitemap.main
    (Sitemap.World
       (Sitemap.Lists
          [Sitemap.File "team.html";
           Sitemap.Dir "blog" (Sitemap.Lists [Sitemap.File "index.html"])])
       "2026-01-01" None)
  = Sitemap.main
      (Sitemap.World
         (Sitemap.Lists
            [Sitemap.Dir "blog" (Sitemap.Lists [Sitemap.File "index.html"]);
             Sitemap.File "team.html"])
         "2026-01-01" None).
Proof.
  apply listing_order_irrelevant.
  - reflexivity.
  - intros e [H|H]; [|discriminate]. revert e H.
    eapply walk_resolved. reflexivity.
  - intros e [H|H]; [|discriminate]. revert e H.
    eapply walk_resolved. reflexivity.
  - vm_compute. apply perm_swap.
Defined.

(** X8: every entry carries the date of the run as [lastmod], and as change
    frequency and priority what [getMeta] gives for its URL path. *)
Theorem entries_metadata (now : string) (files : list (list string)) :
  Forall (λ u,
            Sitemap.lastmod u = now ∧
            Sitemap.changefreq u
              = Sitemap.m_changefreq (Sitemap.getMeta (Sitemap.urlPath u)) ∧
            Sitemap.priority u
              = Sitemap.m_priority (Sitemap.getMeta (Sitemap.urlPath u)))
         (Sitemap.buildUrls now files).
Proof.
  unfold Sitemap.buildUrls. apply Forall_fmap, Forall_true. intros p.
  unfold compose. cbv beta zeta. by rewrite urlPath_entry.
Qed.

Lemma buildUrls_length now (files : list (list string)) :
  List.length (Sitemap.buildUrls now files) = List.length files.
Proof.
  rewrite <- (length_fmap Sitemap.urlPath), buildUrls_paths.
  unfold Sitemap.sort. by rewrite merge_sort_Permutation, length_fmap.
Qed.

(** X9: a run without file-system error ends with status 0 and logs the
    number of files that are to be listed, which is the number of entries;
    on a site without any such file it still writes a sitemap, with no
    entry. *)
Theorem logged_count (w : Sitemap.world) :
  (∀ e, ¬ fsError w e) →
  let n := List.length (List.filter listed (regularFiles [] (Sitemap.w_root w))) in
  Sitemap.exit_code (Sitemap.main w) = 0 ∧
  Sitemap.stdout (Sitemap.main w)
    = ["Generated sitemap.xml with " +:+ pretty n +:+ " URLs."] ∧
  Sitemap.stderr (Sitemap.main w) = [] ∧
  ∃ urls, Sitemap.entries (Sitemap.main w) = Some urls ∧ List.length urls = n.
Proof.
  intros Hno n.
  destruct (main_outcome w) as [(e & He & _)|[_ ->]]; [by destruct (Hno e)|].
  simpl. rewrite buildUrls_length. repeat split. eexists. split; [done|].
  apply buildUrls_length.
Qed.

Lemma logged_count_witness :
  Sitemap.stdout
    (Sitemap.main
       (Sitemap.World
          (Sitemap.Lists
             [Sitemap.File "404.html"; Sitemap.File "robots.txt"])
          "2026-01-01" None))
  = ["Generated sitemap.xml with 0 URLs."].
Proof.
  apply (logged_count
           (Sitemap.World
              (Sitemap.Lists
                 [Sitemap.File "404.html"; Sitemap.File "robots.txt"])
              "2026-01-01" None)).
  intros e [H|H]; [|discriminate]. revert e H.
  eapply walk_resolved. reflexivity.
Defined.

Lemma trimEnd_append s t :
  JS.trimEnd t = t → t ≠ "" → JS.trimEnd (s +:+ t) = s +:+ t.
Proof.
  intros Ht Hne. induction s as [|a s IH]; [done|].
  simpl. rewrite IH. destruct (s +:+ t) eqn:Hst; [|done].
  by destruct s, t.
Qed.

Lemma append_nonempty s t : t ≠ "" → s +:+ t ≠ "".
Proof. intros Ht. by destruct s, t. Qed.

Lemma trim_renderXml urls :
  JS.trim (Sitemap.renderXml urls) = Sitemap.renderXml urls.
Proof.
  unfold JS.trim.
  assert (JS.trimStart (Sitemap.renderXml urls) = Sitemap.renderXml urls)
    as -> by done.
  unfold Sitemap.renderXml.
  repeat (apply trimEnd_append; [|repeat apply append_nonempty; done]).
  done.
Qed.

(** X10: [trim()] cuts nothing off the document: the file written is the
    template with its entries, and one line end after it. *)
Theorem written_document (w : Sitemap.world) (urls : list Sitemap.url) :
  Sitemap.entries (Sitemap.main w) = Some urls →
  Sitemap.written (Sitemap.main w)
  = Some (["sitemap.xml"], Sitemap.renderXml urls +:+ Sitemap.nl).
Proof.
  destruct (main_outcome w) as [(e & _ & ->)|[_ ->]]; simpl; [done|].
  intros [= <-]. by rewrite trim_renderXml.
Qed.

Lemma written_document_witness :
  Sitemap.written
    (Sitemap.main
       (Sitemap.World (Sitemap.Lists [Sitemap.File "index.html"])
          "2026-01-01" None))
  = Some (["sitemap.xml"],
          Sitemap.renderXml (Sitemap.buildUrls "2026-01-01" [["index.html"]])
            +:+ Sitemap.nl).
Proof.
  apply (written_document
           (Sitemap.World (Sitemap.Lists [Sitemap.File "index.html"])
              "2026-01-01" None)).
  vm_compute. reflexivity.
Defined.

(** X11: the error that is logged is that of a directory that could not be
    read, when there is one, whether or not the file could have been
    written; it is the error of writing the file only when every directory
    of the walk could be read. *)
Theorem logged_error (w : Sitemap.world) :
  (∀ e, rejectsBelow (Sitemap.w_root w) e →
     ∃ e', rejectsBelow (Sitemap.w_root w) e' ∧
           Sitemap.stderr (Sitemap.main w) = [("Error generating sitemap:", e')]) ∧
  (∀ e, (∀ e', ¬ rejectsBelow (Sitemap.w_root w) e') →
     Sitemap.w_write w = Some e →
     Sitemap.stderr (Sitemap.main w) = [("Error generating sitemap:", e)]).
Proof.
  unfold Sitemap.main, Sitemap.generate, Sitemap.writeFile.
  destruct (getHtmlFiles_outcome (Sitemap.w_root w) [])
    as [(e0 & -> & Hrej)|[-> Hno]]; [done|..]; simpl.
  - split; [eauto|]. intros e Hnone. by destruct (Hnone e0).
  - split; [intros e He; by destruct (Hno e)|].
    intros e _ ->. done.
Qed.

Lemma logged_error_witness :
  ∃ e',
    Sitemap.stderr
      (Sitemap.main
         (Sitemap.World
            (Sitemap.Lists [Sitemap.Dir "blog" (Sitemap.Rejects "EACCES")])
            "2026-01-01" (Some "EROFS")))
    = [("Error generating sitemap:", e')] ∧ e' = "EACCES".
Proof.
  destruct (proj1 (logged_error
              (Sitemap.World
                 (Sitemap.Lists [Sitemap.Dir "blog" (Sitemap.Rejects "EACCES")])
                 "2026-01-01" (Some "EROFS")))
              "EACCES") as (e' & _ & He').
  - apply walk_rejected. reflexivity.
  - exists e'. split; [exact He'|]. vm_compute in He'. congruence.
Defined.

(** ** The navigation scroll handler *)

Lemma contains_add_ne cl c c' :
  c' ≠ c → DOM.contains (DOM.add cl c) c' = DOM.contains cl c'.
Proof.
  intros Hne. unfold DOM.add. destruct (DOM.contains cl c); [done|].
  unfold DOM.contains. rewrite existsb_app. simpl.
  apply String.eqb_neq in Hne. by rewrite Hne, !orb_false_r.
Qed.

Lemma add_twice cl c : DOM.add (DOM.add cl c) c = DOM.add cl c.
Proof. unfold DOM.add at 1. by rewrite contains_add. Qed.

Lemma remove_twice cl c : DOM.remove (DOM.remove cl c) c = DOM.remove cl c.
Proof.
  unfold DOM.remove. induction cl as [|x cl IH]; [done|].
  rewrite (filter_cons _ x cl). destruct (decide (x ≠ c)); [|done].
  by rewrite filter_cons_True, IH.
Qed.

(** X12: [updateHeader] changes no class of the header but [scrolled], and
    running it a second time at the same offset changes nothing. *)
Theorem updateHeader_only_scrolled (st : Navigation.state) :
  Navigation.updateHeader (Navigation.updateHeader st)
    = Navigation.updateHeader st ∧
  ∀ classes c,
    Navigation.header st = Some classes → c ≠ "scrolled" →
    ∃ classes',
      Navigation.header (Navigation.updateHeader st) = Some classes' ∧
      DOM.contains classes' c = DOM.contains classes c.
Proof.
  unfold Navigation.updateHeader. split.
  - destruct (Navigation.header st) as [classes|]; simpl; [|done].
    destruct (Navigation.gt _ 50); by rewrite ?add_twice, ?remove_twice.
  - intros classes c -> Hc. simpl. eexists. split; [done|].
    destruct (Navigation.gt _ 50);
      [by apply contains_add_ne|by apply contains_remove_other].
Qed.

Lemma updateHeader_only_scrolled_witness :
  ∃ classes',
    Navigation.header
      (Navigation.updateHeader
         (Navigation.State (Some ["site-header"; "scrolled"]) true 0 3))
    = Some classes' ∧
    DOM.contains classes' "site-header" = true.
Proof.
  apply (proj2 (updateHeader_only_scrolled
                  (Navigation.State (Some ["site-header"; "scrolled"]) true 0 3))
           ["site-header"; "scrolled"] "site-header");
    [reflexivity|discriminate].
Defined.

Lemma updateHeader_current st :
  Navigation.scrolled (Navigation.updateHeader st)
  = bool_decide (is_Some (Navigation.header (Navigation.updateHeader st)))
    && Navigation.gt (Navigation.pageYOffset (Navigation.updateHeader st)) 50.
Proof.
  unfold Navigation.updateHeader, Navigation.scrolled.
  destruct (Navigation.header st) as [classes|]; simpl; [|done].
  destruct (Navigation.gt _ 50); [apply contains_add|apply contains_remove].
Qed.

Lemma load_inStep header y : inStep (Scroll.load header y).
Proof.
  unfold inStep, Scroll.load. cbv zeta.
  split; [|intros _; apply updateHeader_current].
  unfold Navigation.updateHeader. simpl. by destruct header.
Qed.

Lemma handle_inStep m ev : inStep m → inStep (Scroll.handle m ev).
Proof.
  intros [Hframes Hclass]. destruct ev as [y|]; unfold inStep; simpl.
  - unfold Navigation.onScroll. simpl.
    destruct (Navigation.ticking (Scroll.script m)) eqn:Ht; simpl.
    + done.
    + split; [lia|done].
  - unfold Scroll.pendingFrames.
    destruct (0 <? _)%nat eqn:Hp; [|done].
    apply Nat.ltb_lt in Hp. cbv zeta.
    split; [|intros _; apply updateHeader_current].
    destruct (Navigation.ticking (Scroll.script m)); [|lia].
    unfold Navigation.updateHeader.
    destruct (Navigation.header (Scroll.script m)); simpl; lia.
Qed.

(** X13: however the page is scrolled and whenever the frames run, at most
    one frame callback is asked for and not yet run; and whenever none is,
    the header carries [scrolled] exactly when the offset is above 50 (and
    there is a header). *)
Theorem scroll_throttled
    (header : option (list string)) (y : Q) (evs : list Scroll.event) :
  let m := foldl Scroll.handle (Scroll.load header y) evs in
  (Scroll.pendingFrames m ≤ 1)%nat ∧
  (Scroll.pendingFrames m = 0 →
   Navigation.scrolled (Scroll.script m)
   = bool_decide (is_Some (Navigation.header (Scroll.script m)))
     && Navigation.gt (Navigation.pageYOffset (Scroll.script m)) 50).
Proof.
  intros m.
  assert (inStep m) as [Hframes Hclass].
  { apply (fold_invariant inStep); [|apply load_inStep].
    intros m' ev _. apply handle_inStep. }
  unfold Scroll.pendingFrames.
  destruct (Navigation.ticking (Scroll.script m)) eqn:Ht.
  - split; lia.
  - split; [lia|]. intros _. by apply Hclass.
Qed.

Lemma scroll_throttled_witness :
  Navigation.scrolled
    (Scroll.script
       (foldl Scroll.handle (Scroll.load (Some ["site-header"]) 0)
          [Scroll.ScrollTo 20; Scroll.ScrollTo 300; Scroll.ScrollTo 80;
           Scroll.Frame]))
  = true.
Proof.
  apply (proj2 (scroll_throttled (Some ["site-header"]) 0
                  [Scroll.ScrollTo 20; Scroll.ScrollTo 300; Scroll.ScrollTo 80;
                   Scroll.Frame])).
  reflexivity.
Defined.

(** ** The image optimizer *)

Lemma upper_append s t : JS.upper (s +:+ t) = JS.upper s +:+ JS.upper t.
Proof. induction s as [|a s IH]; simpl; [done|]. by rewrite IH. Qed.

Lemma append_last_char s t c d :
  s +:+ String c "" = t +:+ String d "" → c = d.
Proof.
  revert t. induction s as [|a s IH]; intros [|b t] H; simpl in H.
  - congruence.
  - injection H as _ H. by destruct t.
  - injection H as _ H. by destruct s.
  - injection H as _ H. by apply (IH t).
Qed.

Lemma isImageExt_upper ext :
  Images.isImageExt ext = true →
  JS.upper ext = ".JPG" ∨ JS.upper ext = ".JPEG" ∨ JS.upper ext = ".PNG".
Proof.
  unfold Images.isImageExt. rewrite !orb_true_iff, !String.eqb_eq. tauto.
Qed.

Lemma isImageExt_before c s ext :
  Images.isImageExt ext = true →
  Images.isImageExt (String c (s +:+ ext)) = false.
Proof.
  intros Hext. unfold Images.isImageExt.
  change (String c (s +:+ ext)) with (String c s +:+ ext).
  rewrite upper_append.
  destruct (isImageExt_upper ext Hext) as [->|[->| ->]];
    (destruct s as [|d s];
     [simpl; by destruct (Ascii.eqb (JS.canonicalize c) ".")
     |rewrite !eqb_length;
      [done|simpl; rewrite length_append, length_upper; simpl; lia..]]).
Qed.

Lemma replaceAtEnd_imageExt stem ext :
  Images.isImageExt ext = true →
  JS.replaceAtEnd Images.isImageExt ".webp" (stem +:+ ext) = stem +:+ ".webp".
Proof.
  intros Hext. induction stem as [|c s IH].
  - destruct ext as [|e ext]; [discriminate|].
    change ("" +:+ String e ext) with (String e ext).
    cbn [JS.replaceAtEnd]. by rewrite Hext.
  - change (String c s +:+ ext) with (String c (s +:+ ext)).
    cbn [JS.replaceAtEnd]. rewrite isImageExt_before by done. by rewrite IH.
Qed.

Lemma endsWith_imageExt_webp stem ext :
  Images.isImageExt ext = true → JS.endsWith (stem +:+ ext) ".webp" = false.
Proof.
  intros Hext. apply not_true_iff_false. intros [a Ha]%endsWith_spec.
  apply (f_equal JS.upper) in Ha. rewrite !upper_append in Ha.
  change (JS.upper ".webp") with (".WEB" +:+ "P") in Ha.
  rewrite <- append_assoc in Ha.
  destruct (isImageExt_upper ext Hext) as [He|[He|He]]; rewrite He in Ha.
  - change ".JPG" with (".JP" +:+ "G") in Ha. rewrite <- append_assoc in Ha.
    by apply append_last_char in Ha.
  - change ".JPEG" with (".JPE" +:+ "G") in Ha. rewrite <- append_assoc in Ha.
    by apply append_last_char in Ha.
  - change ".PNG" with (".PN" +:+ "G") in Ha. rewrite <- append_assoc in Ha.
    by apply append_last_char in Ha.
Qed.

(** X14: with WebP support, a source that ends in [.jpg], [.jpeg] or
    [.png], in whatever case, and holds no [data:], resolves to the source
    with that ending replaced by [.webp]. *)
Theorem getOptimizedSrc_imageExt (stem ext : string) :
  Images.isImageExt ext = true →
  JS.includes (stem +:+ ext) "data:" = false →
  Images.getOptimizedSrc (Some true) (stem +:+ ext) = stem +:+ ".webp".
Proof.
  intros Hext Hdata. unfold Images.getOptimizedSrc.
  rewrite endsWith_imageExt_webp, Hdata by done. simpl.
  by apply replaceAtEnd_imageExt.
Qed.

Lemma getOptimizedSrc_imageExt_witness :
  Images.getOptimizedSrc (Some true) ("/images/team.photo" +:+ ".JPeG")
    = "/images/team.photo" +:+ ".webp".
Proof.
  apply (getOptimizedSrc_imageExt "/images/team.photo" ".JPeG");
    reflexivity.
Defined.

Lemma concat_app sep (l1 l2 : list string) :
  l1 ≠ [] → l2 ≠ [] →
  String.concat sep (l1 ++ l2)
    = String.concat sep l1 +:+ sep +:+ String.concat sep l2.
Proof.
  intros H1 H2. induction l1 as [|x l1 IH]; [done|].
  destruct l1 as [|y l1].
  - destruct l2; [done|]. done.
  - rewrite <- !app_comm_cons, !concat_cons, app_comm_cons, IH by done.
    by rewrite !append_assoc.
Qed.

(** X15: with WebP support the candidates of a [srcset] are converted one
    by one, and joined by a comma and a space; without support the [srcset]
    stays as it is. *)
Theorem getOptimizedSrcset_candidates (a b : string) :
  Images.getOptimizedSrcset (Some true) (a +:+ "," +:+ b)
    = Images.getOptimizedSrcset (Some true) a +:+ ", "
        +:+ Images.getOptimizedSrcset (Some true) b ∧
  ∀ webp srcset,
    Images.supported webp = false →
    Images.getOptimizedSrcset webp srcset = srcset.
Proof.
  split.
  - unfold Images.getOptimizedSrcset. simpl negb. cbv iota.
    change (a +:+ "," +:+ b) with (a +:+ String "," b).
    rewrite split_append, fmap_app, concat_app; [done|..].
    + pose proof (split_nonempty "," a). by destruct (JS.split "," a).
    + pose proof (split_nonempty "," b). by destruct (JS.split "," b).
  - intros webp srcset H. unfold Images.getOptimizedSrcset. by rewrite H.
Qed.

Lemma getOptimizedSrcset_candidates_witness :
  Images.getOptimizedSrcset None "hero-320w.jpg 320w,hero-640w.jpg 640w"
    = "hero-320w.jpg 320w,hero-640w.jpg 640w".
Proof.
  apply (proj2 (getOptimizedSrcset_candidates "" "")). reflexivity.
Defined.

Section Callbacks.

Variable resolveURL : string → string.

Lemma observed_set pg o id :
  Images.observed (Images.set_imageObserver pg (Some o)) id ↔ id ∈ o.
Proof.
  unfold Images.observed. simpl. split; [by intros (? & [= <-] & ?)|eauto].
Qed.

Lemma observe_some pg o x :
  Images.imageObserver pg = Some o →
  Images.observe pg x = Images.set_imageObserver pg (Some (o ∪ {[x]})).
Proof. intros H. unfold Images.observe. by rewrite H. Qed.

(** X16: where the browser has an [IntersectionObserver], setting up lazy
    loading starts no load and changes no image; it puts under observation
    the images of the document that have [data-src] or [loading="lazy"] and
    do not carry [loaded], and no others. *)
Theorem setup_observes_unloaded (document : list nat) (pg : Images.page) :
  let pg' := Images.setupLazyLoading resolveURL true document pg in
  Images.requested pg' = Images.requested pg ∧
  Images.pending pg' = Images.pending pg ∧
  Images.imgs pg' = Images.imgs pg ∧
  ∀ id, Images.observed pg' id ↔
        id ∈ document ∧ Images.matches pg Images.lazySelector id = true ∧
        Images.isLoaded pg id = false.
Proof.
  unfold Images.setupLazyLoading. cbv zeta.
  set (l := List.filter (Images.matches pg Images.lazySelector) document).
  cut (∀ o, let pg' :=
              foldl (λ (pg0 : Images.page) (id : nat),
                       if negb (Images.isLoaded pg0 id)
                       then Images.observe pg0 id else pg0)
                    (Images.set_imageObserver pg (Some o)) l in
            Images.requested pg' = Images.requested pg ∧
            Images.pending pg' = Images.pending pg ∧
            Images.imgs pg' = Images.imgs pg ∧
            ∀ id, Images.observed pg' id ↔
                  id ∈ o ∨ (id ∈ l ∧ Images.isLoaded pg id = false)).
  { intros H. destruct (H ∅) as (Hr & Hp & Hi & Ho).
    split; [done|]. split; [done|]. split; [done|]. intros id.
    rewrite Ho. unfold l. rewrite list_elem_of_In, filter_In.
    rewrite <- list_elem_of_In. split.
    - intros [?%elem_of_empty|[[? ?] ?]]; done.
    - intros (? & ? & ?). by right. }
  clearbody l. induction l as [|x l IH]; intros o; cbv zeta.
  { simpl. split; [done|]. split; [done|]. split; [done|]. intros id.
    rewrite observed_set. split; [by left|].
    by intros [?|[?%elem_of_nil _]]. }
  simpl foldl.
  assert (Images.isLoaded (Images.set_imageObserver pg (Some o)) x
          = Images.isLoaded pg x) as -> by done.
  destruct (Images.isLoaded pg x) eqn:Hx; simpl negb; cbv iota.
  - destruct (IH o) as (Hr & Hp & Hi & Ho).
    split; [done|]. split; [done|]. split; [done|]. intros id.
    rewrite Ho, elem_of_cons. split.
    + intros [?|[? ?]]; [by left|right]. by split; [right|].
    + intros [?|[[->|?] ?]]; [by left|congruence|by right].
  - rewrite (observe_some _ o) by done.
    destruct (IH (o ∪ {[x]})) as (Hr & Hp & Hi & Ho).
    split; [done|]. split; [done|]. split; [done|]. intros id.
    rewrite Ho, elem_of_cons, elem_of_union, elem_of_singleton. split.
    + intros [[?| ->]|[? ?]]; [by left|right|right].
      * by split; [left|].
      * by split; [right|].
    + intros [?|[[->|?] ?]]; [by left; left|by left; right|by right].
Qed.

Lemma onAddedNode_no_observer pg n :
  Images.imageObserver pg = None → Images.onAddedNode pg n = pg.
Proof.
  intros Hno. unfold Images.onAddedNode.
  destruct (Images.isElement n); [|done].
  match goal with
  | |- context [foldl ?f pg ?l] =>
      assert (foldl f pg l = pg) as ->
  end.
  { induction (List.filter _ _) as [|x l IH]; [done|].
    simpl. rewrite Hno. simpl. by rewrite andb_false_r. }
  destruct (Images.asImg n); [|done].
  destruct (Images.matches _ _ _); [|done].
  rewrite Hno. simpl. by rewrite andb_false_r.
Qed.

Lemma loadImage_observer pg id :
  Images.imageObserver (Images.loadImage resolveURL pg id)
    = Images.imageObserver pg.
Proof.
  by destruct (loadImage_cases resolveURL pg id)
    as [->|(i & _ & _ & _ & ->)].
Qed.

(** X17: where the browser has no [IntersectionObserver], the optimizer
    has none either after [init], and a mutation of the document then
    changes nothing: an image that is added later is neither observed nor
    loaded. *)
Theorem no_observer_no_late_images
    (webp hasMO : bool) (document : list nat) (pg : Images.page)
    (mutations : list (list Images.node)) :
  Images.imageObserver pg = None →
  let pg' := Images.init resolveURL webp false hasMO document pg in
  Images.imageObserver pg' = None ∧ Images.onMutations pg' mutations = pg'.
Proof.
  intros Hno pg'.
  assert (Images.imageObserver pg' = None) as Hno'.
  { unfold pg', Images.init, Images.observeNewImages, Images.setupLazyLoading.
    cbv zeta iota.
    match goal with
    | |- context [foldl ?f ?a ?l] =>
        assert (Images.imageObserver (foldl f a l) = None) as Hfold
    end.
    { apply (fold_invariant (λ p, Images.imageObserver p = None)); [|done].
      intros p x _ Hp. by rewrite loadImage_observer. }
    by destruct hasMO. }
  split; [done|]. unfold Images.onMutations.
  apply (fold_invariant (λ p, p = pg')); [|done].
  intros p addedNodes _ ->.
  apply (fold_invariant (λ p, p = pg')); [|done].
  intros p n _ ->. by apply onAddedNode_no_observer.
Qed.

Lemma observed_onIntersection pg entries id :
  Images.observed (Images.onIntersection resolveURL pg entries) id →
  Images.observed pg id.
Proof.
  unfold Images.onIntersection.
  apply (fold_invariant (λ p, Images.observed p id → Images.observed pg id));
    [|done].
  intros p [tgt b] _ Hp. simpl. destruct b; [|done].
  intros H%observed_unobserve. apply Hp.
  unfold Images.observed in *. by rewrite loadImage_observer in H.
Qed.

Lemma not_observed_unobserve pg id : ¬ Images.observed (Images.unobserve pg id) id.
Proof.
  unfold Images.observed, Images.unobserve. simpl.
  intros (o & Ho & Hin). destruct (Images.imageObserver pg); simplify_eq/=.
  apply elem_of_difference in Hin as [_ Hin]. apply Hin.
  by apply elem_of_singleton.
Qed.

Lemma onIntersection_cons pg entry entries :
  Images.onIntersection resolveURL pg (entry :: entries)
  = Images.onIntersection resolveURL
      (if snd entry
       then Images.unobserve (Images.loadImage resolveURL pg (fst entry))
              (fst entry)
       else pg)
      entries.
Proof. done. Qed.

(** X18: the callback of the observer leaves the page as it is when no
    entry is intersecting; and no target of an intersecting entry is
    under observation when the callback is done. *)
Theorem intersection_unobserves (pg : Images.page) (entries : list (nat * bool)) :
  (Forall (λ entry : nat * bool, snd entry = false) entries →
   Images.onIntersection resolveURL pg entries = pg) ∧
  ∀ id, (id, true) ∈ entries →
        ¬ Images.observed (Images.onIntersection resolveURL pg entries) id.
Proof.
  split.
  - intros Hall. unfold Images.onIntersection.
    apply (fold_invariant (λ p, p = pg)); [|done].
    intros p entry Hin ->. rewrite Forall_forall in Hall.
    by rewrite (Hall _ Hin).
  - intros id. revert pg. induction entries as [|entry entries IH];
      intros pg Hin; [by apply elem_of_nil in Hin|].
    rewrite onIntersection_cons.
    apply elem_of_cons in Hin as [<-|Hin]; [|by apply IH].
    intros H%observed_onIntersection. simpl in H.
    by apply not_observed_unobserve in H.
Qed.

End Callbacks.

Lemma no_observer_no_late_images_witness :
  let pg :=
    Images.init id true false true [0]
      (Images.Page None None false
         {[ 0 := Images.Img (Some heroJpg) None None None None [];
            1 := Images.Img (Some heroJpg) None None None None [] ]}
         [] [] [] []) in
  Images.onMutations pg [[Images.Node true (Some 1) []]] = pg.
Proof.
  intros pg.
  apply (no_observer_no_late_images id true true [0]
           (Images.Page None None false
              {[ 0 := Images.Img (Some heroJpg) None None None None [];
                 1 := Images.Img (Some heroJpg) None None None None [] ]}
              [] [] [] [])
           [[Images.Node true (Some 1) []]]).
  reflexivity.
Defined.

Lemma intersection_unobserves_witness :
  Images.onIntersection id heroPage [(0, false)] = heroPage.
Proof.
  apply (proj1 (intersection_unobserves id heroPage [(0, false)])).
  repeat constructor.
Defined.

Section Handlers.

Variable resolveURL : string → string.

(** X19: when the load of the optimized source has ended, the image has
    that source as its [src] and carries [loaded] and [fade-in]; when the
    timer set then has expired, [fade-in] is gone and [loaded] is still
    there. *)
Theorem load_then_fade
    (pg : Images.page) (k : nat) (t : Images.tempImg) (i : Images.img) :
  Images.pending pg !! k = Some t →
  Images.imgs pg !! Images.t_img t = Some i →
  let pg1 := Images.handle resolveURL pg (Images.Load k) in
  let pg2 :=
    Images.handle resolveURL pg1
      (Images.FadeTimeout (List.length (Images.timers pg))) in
  (∃ i1, Images.imgs pg1 !! Images.t_img t = Some i1 ∧
     Images.attr_src i1 = Some (Images.t_optimizedSrc t) ∧
     Images.loaded i1 = true ∧
     DOM.contains (Images.classes i1) "fade-in" = true) ∧
  (∃ i2, Images.imgs pg2 !! Images.t_img t = Some i2 ∧
     Images.attr_src i2 = Some (Images.t_optimizedSrc t) ∧
     Images.loaded i2 = true ∧
     DOM.contains (Images.classes i2) "fade-in" = false) ∧
  Images.timers pg2 = Images.timers pg.
Proof.
  intros Hk Hi pg1 pg2. unfold pg2, pg1. simpl. rewrite Hk. simpl.
  rewrite list_lookup_middle by done. simpl.
  rewrite !lookup_alter. rewrite !decide_True by done. rewrite Hi. simpl.
  split; [|split].
  - eexists. split; [done|]. split; [done|]. unfold Images.loaded. simpl.
    split; [|apply contains_add].
    apply contains_add_other, contains_add.
  - eexists. split; [done|]. split; [done|]. unfold Images.loaded. simpl.
    split; [|apply contains_remove].
    rewrite contains_remove_other by done.
    apply contains_add_other, contains_add.
  - by rewrite delete_middle, app_nil_r.
Qed.

Lemma imgs_onIntersection pg entries :
  Images.imgs (Images.onIntersection resolveURL pg entries) = Images.imgs pg.
Proof.
  unfold Images.onIntersection.
  apply (fold_invariant (λ p, Images.imgs p = Images.imgs pg)); [|done].
  intros p [tgt b] _ Hp. simpl. destruct b; [|done]. simpl.
  by destruct (loadImage_frame resolveURL p tgt) as (-> & _).
Qed.

Lemma observe_guarded_frame pg x (b : bool) :
  let pg' := if negb (Images.isLoaded pg x) && b
             then Images.observe pg x else pg in
  Images.imgs pg' = Images.imgs pg ∧
  (is_Some (Images.imageObserver pg) → is_Some (Images.imageObserver pg')) ∧
  ∀ id, Images.observed pg id → Images.observed pg' id.
Proof.
  cbv zeta. destruct (negb _ && b); [|done]. split; [done|].
  unfold Images.observed, Images.observe. simpl. split.
  - intros [o ->]. by eexists.
  - intros id (o & -> & Hin). eexists. split; [done|]. set_solver.
Qed.

Lemma imgs_onAddedNode pg n :
  Images.imgs (Images.onAddedNode pg n) = Images.imgs pg.
Proof.
  unfold Images.onAddedNode. destruct (Images.isElement n); [|done].
  match goal with
  | |- context [foldl ?f pg ?l] =>
      assert (Images.imgs (foldl f pg l) = Images.imgs pg) as Hfold
  end.
  { apply (fold_invariant (λ p, Images.imgs p = Images.imgs pg)); [|done].
    intros p x _ Hp.
    by destruct (observe_guarded_frame p x
                   (bool_decide (is_Some (Images.imageObserver p))))
      as (-> & _). }
  destruct (Images.asImg n) as [x|]; [|done].
  destruct (Images.matches _ _ x); [|done].
  match goal with
  | |- context [foldl ?f pg ?l] =>
      by destruct (observe_guarded_frame (foldl f pg l) x
                     (bool_decide (is_Some (Images.imageObserver (foldl f pg l)))))
        as (-> & _)
  end.
Qed.

Lemma imgs_onMutations pg mutations :
  Images.imgs (Images.onMutations pg mutations) = Images.imgs pg.
Proof.
  unfold Images.onMutations.
  apply (fold_invariant (λ p, Images.imgs p = Images.imgs pg)); [|done].
  intros p addedNodes _ Hp.
  apply (fold_invariant (λ p, Images.imgs p = Images.imgs pg)); [|done].
  intros p' n _ Hp'. by rewrite imgs_onAddedNode.
Qed.

Lemma handle_sameMarkup pg ev id i :
  Images.imgs pg !! id = Some i →
  ∃ i', Images.imgs (Images.handle resolveURL pg ev) !! id = Some i' ∧
        sameMarkup i i'.
Proof.
  intros Hi. destruct ev as [entries|mutations|k|k|k|x]; simpl.
  - rewrite imgs_onIntersection. by exists i.
  - rewrite imgs_onMutations. by exists i.
  - destruct (Images.pending pg !! k) as [t|]; [|by exists i].
    simpl. rewrite lookup_alter. case_decide as Hx; [|by exists i].
    rewrite Hx, Hi. simpl. by eexists.
  - destruct (Images.pending pg !! k) as [t|]; [|by exists i].
    simpl. rewrite lookup_alter. case_decide as Hx; [|by exists i].
    rewrite Hx, Hi. simpl. by eexists.
  - destruct (Images.timers pg !! k) as [y|]; [|by exists i].
    simpl. rewrite lookup_alter. case_decide as Hx; [|by exists i].
    rewrite Hx, Hi. simpl. by eexists.
  - destruct (loadImage_frame resolveURL pg x) as (-> & _). by exists i.
Qed.

(** X20: whatever happens on the page, the optimizer removes no image and
    leaves [data-src], [data-srcset] and [loading] of every image as the
    markup has set them. *)
Theorem markup_attributes_kept
    (pg : Images.page) (evs : list Images.event) (id : nat) (i : Images.img) :
  Images.imgs pg !! id = Some i →
  ∃ i', Images.imgs (foldl (Images.handle resolveURL) pg evs) !! id = Some i' ∧
        Images.dataset_src i' = Images.dataset_src i ∧
        Images.dataset_srcset i' = Images.dataset_srcset i ∧
        Images.attr_loading i' = Images.attr_loading i.
Proof.
  intros Hi.
  apply (fold_invariant
           (λ p, ∃ i', Images.imgs p !! id = Some i' ∧ sameMarkup i i'));
    [|by exists i].
  intros p ev _ (i1 & Hi1 & H1 & H2 & H3).
  destruct (handle_sameMarkup p ev id i1 Hi1) as (i2 & Hi2 & H1' & H2' & H3').
  exists i2. split; [done|]. repeat split; congruence.
Qed.

(** X21: with an observer at hand, an image that is added to the document
    below another node, matches the selector of lazy images and does not
    carry [loaded] is under observation when the mutation callback is
    done. *)
Theorem added_image_observed
    (pg : Images.page) (n : Images.node) (id : nat) :
  is_Some (Images.imageObserver pg) →
  Images.isElement n = true →
  id ∈ Images.descendants n →
  Images.matches pg Images.lazySelector id = true →
  Images.isLoaded pg id = false →
  Images.observed (Images.onAddedNode pg n) id.
Proof.
  intros Hobs Helem Hin Hsel Hload. unfold Images.onAddedNode. rewrite Helem.
  set (l := List.filter (Images.matches pg Images.lazySelector)
              (Images.descendants n)).
  assert (id ∈ l) as Hl.
  { apply list_elem_of_In, filter_In. by rewrite <- list_elem_of_In. }
  clearbody l.
  set (f := λ (pg0 : Images.page) (id0 : nat),
              if negb (Images.isLoaded pg0 id0)
                 && bool_decide (is_Some (Images.imageObserver pg0))
              then Images.observe pg0 id0 else pg0).
  assert (∀ p, Images.imgs p = Images.imgs pg →
               is_Some (Images.imageObserver p) →
               Images.observed (foldl f p l) id) as Hfold.
  { induction l as [|x l IH]; intros p Hp Ho; [by apply elem_of_nil in Hl|].
    simpl.
    destruct (observe_guarded_frame p x
                (bool_decide (is_Some (Images.imageObserver p))))
      as (Hi' & Ho' & Hmono).
    apply elem_of_cons in Hl as [<-|Hl].
    - apply (fold_invariant (λ q, Images.observed q id)).
      + intros q y _ Hq.
        by apply (observe_guarded_frame q y
                    (bool_decide (is_Some (Images.imageObserver q)))).
      + unfold f. unfold Images.isLoaded in *. rewrite Hp, Hload.
        rewrite bool_decide_eq_true_2 by done. simpl.
        destruct Ho as [o Ho]. unfold Images.observed, Images.observe.
        simpl. rewrite Ho. simpl. eexists. split; [done|]. set_solver.
    - apply IH; [done|unfold f; by rewrite Hi'|by apply Ho']. }
  specialize (Hfold pg eq_refl Hobs).
  destruct (Images.asImg n) as [x|]; [|done].
  destruct (Images.matches _ _ x); [|done].
  by apply (observe_guarded_frame (foldl f pg l) x
              (bool_decide (is_Some (Images.imageObserver (foldl f pg l))))).
Qed.

End Handlers.

Lemma load_then_fade_witness :
  let pg :=
    foldl (Images.handle id) heroPage
      [Images.Intersection [(0, true)]; Images.Load 0; Images.FadeTimeout 0] in
  ∃ i, Images.imgs pg !! 0 = Some i ∧
       Images.attr_src i = Some heroWebp ∧
       Images.loaded i = true ∧
       DOM.contains (Images.classes i) "fade-in" = false.
Proof.
  intros pg.
  apply (proj1 (proj2
    (load_then_fade id
       (Images.handle id heroPage (Images.Intersection [(0, true)])) 0
       (Images.Temp 0 heroJpg None heroWebp)
       (Images.Img (Some heroJpg) None None None None [])
       eq_refl eq_refl))).
Defined.

Lemma markup_attributes_kept_witness :
  ∃ i,
    Images.imgs
      (foldl (Images.handle id) heroPage
         [Images.Intersection [(0, true)]; Images.Load 0]) !! 0 = Some i ∧
    Images.dataset_src i = Some heroJpg.
Proof.
  destruct (markup_attributes_kept id heroPage
              [Images.Intersection [(0, true)]; Images.Load 0] 0
              (Images.Img (Some heroJpg) None None None None []) eq_refl)
    as (i & Hi & Hsrc & _).
  exists i. split; [exact Hi|exact Hsrc].
Defined.

Lemma added_image_observed_witness :
  Images.observed
    (Images.onAddedNode
       (Images.handle id heroPage (Images.Intersection [(0, true)]))
       (Images.Node true None [0]))
    0.
Proof.
  apply (added_image_observed
           (Images.handle id heroPage (Images.Intersection [(0, true)]))
           (Images.Node true None [0]) 0).
  - by eexists.
  - reflexivity.
  - apply list_elem_of_here.
  - reflexivity.
  - reflexivity.
Defined.

Section Init.

Variable resolveURL : string → string.

Lemma loadImage_body pg id :
  Images.body (Images.loadImage resolveURL pg id) = Images.body pg ∧
  Images.webpSupported (Images.loadImage resolveURL pg id)
    = Images.webpSupported pg.
Proof.
  by destruct (loadImage_cases resolveURL pg id)
    as [->|(i & _ & _ & _ & ->)].
Qed.

Lemma setupLazyLoading_body hasIO document pg :
  Images.body (Images.setupLazyLoading resolveURL hasIO document pg)
    = Images.body pg ∧
  Images.webpSupported (Images.setupLazyLoading resolveURL hasIO document pg)
    = Images.webpSupported pg.
Proof.
  unfold Images.setupLazyLoading. destruct hasIO.
  - apply (fold_invariant
             (λ p, Images.body p = Images.body pg ∧
                   Images.webpSupported p = Images.webpSupported pg));
      [|done].
    intros p x _ Hp. by destruct (negb _).
  - apply (fold_invariant
             (λ p, Images.body p = Images.body pg ∧
                   Images.webpSupported p = Images.webpSupported pg));
      [|done].
    intros p x _ [Hb Hw]. destruct (loadImage_body p x) as [-> ->]. done.
Qed.

(** X22: [init] records what the detection has found: the optimizer keeps
    it as [webpSupported], and the body of the document carries
    [webp-supported] when WebP is supported and [webp-not-supported] when it
    is not, beside the classes it had. *)
Theorem init_records_support
    (webp hasIO hasMO : bool) (document : list nat) (pg : Images.page) :
  let pg' := Images.init resolveURL webp hasIO hasMO document pg in
  Images.webpSupported pg' = Some webp ∧
  Images.body pg'
  = DOM.add (Images.body pg)
      (if webp then "webp-supported" else "webp-not-supported") ∧
  DOM.contains (Images.body pg')
    (if webp then "webp-supported" else "webp-not-supported") = true.
Proof.
  unfold Images.init, Images.observeNewImages. cbv zeta.
  match goal with
  | |- context [Images.setupLazyLoading resolveURL hasIO document ?p] =>
      destruct (setupLazyLoading_body hasIO document p) as [Hb Hw]
  end.
  simpl in Hb, Hw.
  destruct hasMO; simpl; rewrite Hb, Hw; (split; [done|]);
    (split; [done|]); apply contains_add.
Qed.

End Init.


(** ** [debounce] *)

Section Debouncing.

Context {A : Type}.

Lemma clearTimeout_latest (st : Debounce.state A) :
  latestOnly st →
  Debounce.clearTimeout (Debounce.timeout st) (Debounce.timers st) = ∅.
Proof.
  intros Hst. apply map_eq. intros j. rewrite lookup_empty.
  unfold Debounce.clearTimeout.
  destruct (Debounce.timeout st) as [tid|] eqn:Ht.
  - destruct (decide (tid = j)) as [->|Hne]; [by rewrite lookup_delete_eq|].
    rewrite lookup_delete_ne by done.
    destruct (Debounce.timers st !! j) as [a|] eqn:Hj; [|done].
    apply Hst in Hj. congruence.
  - destruct (Debounce.timers st !! j) as [a|] eqn:Hj; [|done].
    apply Hst in Hj. congruence.
Qed.

Lemma executedFunction_latest (st : Debounce.state A) (args : A) :
  latestOnly st →
  Debounce.executedFunction st args
  = Debounce.State (Some (Debounce.fresh st)) {[ Debounce.fresh st := args ]}
      (S (Debounce.fresh st)) (Debounce.invoked st).
Proof.
  intros Hst. unfold Debounce.executedFunction.
  by rewrite clearTimeout_latest, insert_empty.
Qed.

Lemma handle_latestOnly (st : Debounce.state A) (ev : Debounce.event A) :
  latestOnly st → latestOnly (Debounce.handle st ev).
Proof.
  intros Hst. destruct ev as [args|id]; simpl.
  - rewrite executedFunction_latest by done. intros j a. simpl.
    intros [-> _]%lookup_singleton_Some. done.
  - unfold Debounce.expire.
    destruct (Debounce.timers st !! id) as [args|] eqn:Hid; [|done].
    intros j a. unfold Debounce.later. simpl. intros Hj.
    apply Hst in Hid. rewrite Hid in Hj. simpl in Hj.
    rewrite delete_delete_eq in Hj.
    apply lookup_delete_Some in Hj as [Hne Hj].
    apply Hst in Hj. congruence.
Qed.

Lemma reachable_latestOnly (evs : list (Debounce.event A)) :
  latestOnly (foldl Debounce.handle Debounce.initial evs).
Proof.
  apply (fold_invariant latestOnly).
  - intros st ev _. apply handle_latestOnly.
  - intros j a. simpl. by rewrite lookup_empty.
Qed.

(** X23: of the timers that the debounced function sets, at most one runs
    at any time, the one of the latest call, and a call does not call
    [func]. *)
Theorem debounce_one_timer (evs : list (Debounce.event A)) (args : A) :
  let st := foldl Debounce.handle Debounce.initial evs in
  (∀ id id' a a',
     Debounce.timers st !! id = Some a → Debounce.timers st !! id' = Some a' →
     id = id' ∧ Debounce.timeout st = Some id) ∧
  Debounce.invoked (Debounce.executedFunction st args) = Debounce.invoked st.
Proof.
  intros st. split; [|done]. intros id id' a a' Hid Hid'.
  pose proof (reachable_latestOnly evs) as Hst. fold st in Hst.
  pose proof (Hst _ _ Hid). pose proof (Hst _ _ Hid'). split; congruence.
Qed.

Lemma burst_state (st : Debounce.state A) (burst : list A) (last : A) :
  latestOnly st →
  foldl Debounce.executedFunction st (burst ++ [last])
  = Debounce.State (Some (Debounce.fresh st + List.length burst))
      {[ Debounce.fresh st + List.length burst := last ]}
      (S (Debounce.fresh st + List.length burst)) (Debounce.invoked st).
Proof.
  revert st. induction burst as [|a burst IH]; intros st Hst.
  - simpl. rewrite executedFunction_latest by done. by rewrite Nat.add_0_r.
  - simpl. rewrite IH.
    + rewrite executedFunction_latest by done. simpl.
      by rewrite Nat.add_succ_r.
    + by apply (handle_latestOnly st (Debounce.Invoke a)).
Qed.

(** X24: after calls in a row, whatever went before, one timer runs; when
    it expires [func] is called once, with the arguments of the last of
    these calls, and no timer is left. *)
Theorem debounce_last_call
    (evs : list (Debounce.event A)) (burst : list A) (last : A) :
  let st := foldl Debounce.handle Debounce.initial evs in
  let st' := foldl Debounce.executedFunction st (burst ++ [last]) in
  let id := Debounce.fresh st + List.length burst in
  Debounce.timers st' = {[ id := last ]} ∧
  Debounce.invoked st' = Debounce.invoked st ∧
  Debounce.invoked (Debounce.expire st' id) = Debounce.invoked st ++ [last] ∧
  Debounce.timers (Debounce.expire st' id) = ∅.
Proof.
  intros st st' id. unfold st'.
  rewrite burst_state by apply reachable_latestOnly.
  fold st. fold id. simpl. split; [done|]. split; [done|].
  unfold Debounce.expire. simpl. rewrite lookup_singleton_eq. simpl.
  split; [done|]. by rewrite delete_singleton_eq, delete_empty.
Qed.

End Debouncing.

(** ** The markup builders *)

Lemma prefix_nil s : String.prefix "" s = true.
Proof. by destruct s. Qed.

Lemma includes_char c a s :
  JS.includes (String a s) (String c "")
  = Ascii.eqb a c || JS.includes s (String c "").
Proof.
  rewrite includes_cons. f_equal. simpl.
  destruct (Ascii.ascii_dec c a) as [->|Hne].
  - by rewrite prefix_nil, Ascii.eqb_refl.
  - symmetry. apply Ascii.eqb_neq. congruence.
Qed.

Lemma includes_char_append c s t :
  JS.includes (s +:+ t) (String c "")
  = JS.includes s (String c "") || JS.includes t (String c "").
Proof.
  induction s as [|a s IH]; [done|].
  change (String a s +:+ t) with (String a (s +:+ t)).
  by rewrite !includes_char, IH, orb_assoc.
Qed.

Lemma lastIndexOf_absent c s :
  JS.includes s (String c "") = false → Markup.lastIndexOf c s = (-1)%Z.
Proof.
  induction s as [|a s IH]; [done|].
  rewrite includes_char, orb_false_iff. intros [Ha Hs].
  simpl. rewrite IH by done. simpl. by rewrite Ha.
Qed.

Lemma lastIndexOf_bounds c s :
  (-1 ≤ Markup.lastIndexOf c s < Z.of_nat (String.length s))%Z.
Proof.
  induction s as [|a s IH]; simpl; [lia|].
  destruct (0 <=? Markup.lastIndexOf c s)%Z eqn:Hi.
  - apply Z.leb_le in Hi. lia.
  - destruct (Ascii.eqb a c); lia.
Qed.

Lemma lastIndexOf_last c s t :
  JS.includes t (String c "") = false →
  Markup.lastIndexOf c (s +:+ String c t) = Z.of_nat (String.length s).
Proof.
  intros Ht. induction s as [|a s IH].
  - simpl. rewrite lastIndexOf_absent by done. simpl.
    by rewrite Ascii.eqb_refl.
  - change (String a s +:+ String c t) with (String a (s +:+ String c t)).
    cbn [Markup.lastIndexOf]. rewrite IH.
    rewrite (proj2 (Z.leb_le _ _)) by lia. simpl String.length. lia.
Qed.

Lemma substring_split n s :
  (n ≤ String.length s)%nat →
  String.substring 0 n s +:+ String.substring n (String.length s - n) s = s.
Proof.
  revert s. induction n as [|n IH]; intros s Hn.
  - simpl. rewrite Nat.sub_0_r.
    destruct s; simpl; [done|]. by rewrite substring_all.
  - destruct s as [|a s]; simpl in *; [lia|]. rewrite IH by lia. done.
Qed.

Lemma substring_prefix s t :
  String.substring 0 (String.length s) (s +:+ t) = s.
Proof. induction s as [|a s IH]; simpl; [by destruct t|by rewrite IH]. Qed.

Lemma picture_parts src :
  let n := Markup.clamp src (Markup.lastIndexOf "." src) in
  Markup.basePathOf src = String.substring 0 n src ∧
  Markup.extOf src = String.substring n (String.length src - n) src ∧
  (n ≤ String.length src)%nat.
Proof.
  intros n.
  assert (n ≤ String.length src)%nat as Hn by (unfold n, Markup.clamp; lia).
  unfold Markup.basePathOf, Markup.extOf, Markup.substringFrom,
    Markup.substring.
  fold n.
  assert (Markup.clamp src 0 = 0) as -> by (unfold Markup.clamp; lia).
  assert (Markup.clamp src (Z.of_nat (String.length src))
          = String.length src) as -> by (unfold Markup.clamp; lia).
  rewrite Nat.min_0_l, Nat.max_0_l, Nat.sub_0_r.
  rewrite (Nat.min_l n), (Nat.max_r n) by done. done.
Qed.

Lemma picture_parts_dot stem e :
  JS.includes e "." = false →
  Markup.basePathOf (stem +:+ "." +:+ e) = stem ∧
  Markup.extOf (stem +:+ "." +:+ e) = "." +:+ e.
Proof.
  intros He. set (src := stem +:+ "." +:+ e).
  destruct (picture_parts src) as (Hbase & Hext & _).
  assert (Markup.clamp src (Markup.lastIndexOf "." src) = String.length stem)
    as Hn.
  { unfold src. change (stem +:+ "." +:+ e) with (stem +:+ String "." e).
    rewrite lastIndexOf_last by done. unfold Markup.clamp.
    rewrite length_append. lia. }
  rewrite Hn in Hbase, Hext.
  assert (Markup.basePathOf src = stem) as Hstem.
  { rewrite Hbase. apply substring_prefix. }
  split; [done|].
  pose proof (substring_split (String.length stem) src) as Hsplit.
  rewrite <- Hbase, <- Hext, Hstem in Hsplit.
  eapply (inj (String.append stem)). rewrite Hsplit; [done|].
  unfold src. rewrite length_append. lia.
Qed.

(** X25: [generatePictureElement] cuts the source at its last dot: base
    path and extension together are the source again; a source without a
    dot has an empty base path and is its own extension, so that the WebP
    candidate is [.webp]. *)
Theorem picture_split (src : string) :
  Markup.basePathOf src +:+ Markup.extOf src = src ∧
  (JS.includes src "." = false →
   Markup.basePathOf src = "" ∧ Markup.extOf src = src) ∧
  (∀ stem e, src = stem +:+ "." +:+ e → JS.includes e "." = false →
   Markup.basePathOf src = stem ∧ Markup.extOf src = "." +:+ e).
Proof.
  destruct (picture_parts src) as (Hbase & Hext & Hn). split; [|split].
  - rewrite Hbase, Hext. by apply substring_split.
  - intros Hdot. rewrite Hbase, Hext.
    rewrite lastIndexOf_absent by done.
    assert (Markup.clamp src (-1) = 0) as -> by (unfold Markup.clamp; lia).
    rewrite Nat.sub_0_r, substring_all. split; [|done]. by destruct src.
  - intros stem e -> He. by apply picture_parts_dot.
Qed.

Lemma picture_split_witness :
  Markup.basePathOf "hero" = "" ∧ Markup.extOf "hero" = "hero".
Proof. apply (proj1 (proj2 (picture_split "hero"))). reflexivity. Defined.

Lemma isExtension_dot e :
  e ≠ "" → JS.includes e "/" = false → JS.includes e "." = false →
  Markup.isExtension ("." +:+ e) = true.
Proof.
  intros Hne Hs Hd. simpl. rewrite Hs, Hd. simpl.
  apply String.eqb_neq in Hne. by rewrite Hne.
Qed.

Lemma isExtension_before c s e :
  Markup.isExtension (String c (s +:+ "." +:+ e)) = false.
Proof.
  cbn [Markup.isExtension].
  change (s +:+ "." +:+ e) with (s +:+ String "." e).
  rewrite (includes_char_append "." s (String "." e)).
  rewrite (includes_char "." "." e), Ascii.eqb_refl. simpl.
  by rewrite orb_true_r, andb_false_r.
Qed.

Lemma responsive_parts_dot stem e :
  e ≠ "" → JS.includes e "/" = false → JS.includes e "." = false →
  Markup.baseNameOf (stem +:+ "." +:+ e) = stem ∧
  Markup.extensionOf (stem +:+ "." +:+ e) = "." +:+ e.
Proof.
  intros Hne Hs Hd. unfold Markup.baseNameOf, Markup.extensionOf.
  pose proof (isExtension_dot e Hne Hs Hd) as Hext.
  induction stem as [|c s [IHb IHe]].
  - change ("" +:+ "." +:+ e) with (String "." e) in *.
    change ("." +:+ e) with (String "." e) in *.
    cbn [JS.replaceAtEnd Markup.matchAtEnd]. by rewrite Hext.
  - change (String c s +:+ "." +:+ e) with (String c (s +:+ "." +:+ e)).
    cbn [JS.replaceAtEnd Markup.matchAtEnd].
    rewrite isExtension_before. by rewrite IHb.
Qed.

Lemma responsive_parts_plain src :
  JS.includes src "." = false →
  Markup.baseNameOf src = src ∧ Markup.extensionOf src = ".jpg".
Proof.
  unfold Markup.baseNameOf, Markup.extensionOf.
  induction src as [|a s IH]; [done|].
  rewrite includes_char, orb_false_iff. intros [Ha [IHb IHe]%IH].
  cbn [JS.replaceAtEnd Markup.matchAtEnd Markup.isExtension].
  rewrite Ha. simpl. by rewrite IHb.
Qed.

(** X26: [createResponsiveImage] cuts off an extension, a last dot with
    one or more characters after it that are neither a dot nor a slash;
    a source without a dot is kept whole and gets the extension [.jpg]. *)
Theorem responsive_split (src : string) :
  (∀ stem e, src = stem +:+ "." +:+ e →
     e ≠ "" → JS.includes e "/" = false → JS.includes e "." = false →
     Markup.baseNameOf src = stem ∧ Markup.extensionOf src = "." +:+ e) ∧
  (JS.includes src "." = false →
   Markup.baseNameOf src = src ∧ Markup.extensionOf src = ".jpg").
Proof.
  split.
  - intros stem e -> Hne Hs Hd. by apply responsive_parts_dot.
  - apply responsive_parts_plain.
Qed.

Lemma responsive_split_witness :
  Markup.baseNameOf "hero" = "hero" ∧ Markup.extensionOf "hero" = ".jpg".
Proof. apply (proj2 (responsive_split "hero")). reflexivity. Defined.

(** X27: the two builders cut a source with an extension in the same
    way. *)
Theorem builders_agree (stem e : string) :
  e ≠ "" → JS.includes e "/" = false → JS.includes e "." = false →
  Markup.baseNameOf (stem +:+ "." +:+ e)
    = Markup.basePathOf (stem +:+ "." +:+ e) ∧
  Markup.extensionOf (stem +:+ "." +:+ e)
    = Markup.extOf (stem +:+ "." +:+ e).
Proof.
  intros Hne Hs Hd.
  destruct (responsive_parts_dot stem e) as [-> ->]; [done..|].
  by destruct (picture_parts_dot stem e) as [-> ->].
Qed.

Lemma builders_agree_witness :
  Markup.baseNameOf ("img.v2/hero" +:+ "." +:+ "png")
    = Markup.basePathOf ("img.v2/hero" +:+ "." +:+ "png").
Proof.
  apply (proj1 (builders_agree "img.v2/hero" "png"
                  ltac:(discriminate) eq_refl eq_refl)).
Defined.

Lemma canonicalize_dot a : JS.canonicalize a = "."%char → a = "."%char.
Proof.
  destruct a as [[|] [|] [|] [|] [|] [|] [|] [|]]; vm_compute; congruence.
Qed.

Lemma includes_dot_upper s :
  JS.includes (JS.upper s) "." = false → JS.includes s "." = false.
Proof.
  induction s as [|a s IH]; [done|]. simpl JS.upper.
  rewrite !includes_char, !orb_false_iff. intros [Ha Hs].
  split; [|by apply IH]. apply Ascii.eqb_neq. intros ->. done.
Qed.

Lemma isImageExt_shape ext :
  Images.isImageExt ext = true →
  ∃ e, ext = "." +:+ e ∧ JS.includes e "." = false.
Proof.
  intros Hext. destruct ext as [|d e]; [done|]. exists e.
  assert (JS.canonicalize d = "."%char ∧ JS.includes (JS.upper e) "." = false)
    as [Hd He].
  { destruct (isImageExt_upper _ Hext) as [H|[H|H]]; simpl in H;
      injection H as -> ->; done. }
  apply canonicalize_dot in Hd as ->. split; [done|].
  by apply includes_dot_upper.
Qed.

Lemma occursIn_skip p x t : occursIn p t → occursIn p (x +:+ t).
Proof.
  intros (a & b & ->). exists (x +:+ a), b. by rewrite append_assoc.
Qed.

Lemma occursIn_here p t r : t = p +:+ r → occursIn p t.
Proof. intros ->. by exists "", r. Qed.

(** X28: for a source that ends in [.jpg], [.jpeg] or [.png] and holds no
    [data:], the WebP candidate that [generatePictureElement] writes into
    the markup is the source that [getOptimizedSrc] resolves to. *)
Theorem picture_names_optimized
    (stem ext : string) (alt : option string) (o : Markup.pictureOptions) :
  Images.isImageExt ext = true →
  JS.includes (stem +:+ ext) "data:" = false →
  Markup.basePathOf (stem +:+ ext) +:+ ".webp"
    = Images.getOptimizedSrc (Some true) (stem +:+ ext) ∧
  occursIn
    ("srcset=" +:+ Markup.dq
       +:+ Images.getOptimizedSrc (Some true) (stem +:+ ext) +:+ Markup.dq)
    (Markup.generatePictureElement (stem +:+ ext) alt o).
Proof.
  intros Hext Hdata.
  assert (Images.getOptimizedSrc (Some true) (stem +:+ ext) = stem +:+ ".webp")
    as ->.
  { unfold Images.getOptimizedSrc.
    rewrite endsWith_imageExt_webp, Hdata by done. simpl.
    by apply replaceAtEnd_imageExt. }
  assert (Markup.basePathOf (stem +:+ ext) = stem) as Hbase.
  { destruct (isImageExt_shape ext Hext) as (e & -> & He).
    by destruct (picture_parts_dot stem e He). }
  split; [by rewrite Hbase|].
  unfold Markup.generatePictureElement. cbv zeta. rewrite Hbase.
  change "                    srcset=" with ("                    " +:+ "srcset=").
  rewrite !append_assoc.
  repeat first
    [ solve [eapply occursIn_here; rewrite !append_assoc; reflexivity]
    | apply occursIn_skip ].
Qed.

Lemma picture_names_optimized_witness :
  Markup.basePathOf ("/images/hero" +:+ ".PNG") +:+ ".webp"
    = Images.getOptimizedSrc (Some true) ("/images/hero" +:+ ".PNG").
Proof.
  apply (picture_names_optimized "/images/hero" ".PNG" None
           (Markup.PictureOptions None None None) eq_refl eq_refl).
Defined.


(** X29: for a source with an extension, the markup of
    [createResponsiveImage] lists, for the widths given (or the six widths
    it has by default), the WebP candidates under the base name, and after
    the type of the source, [image/png] for [.png] and [image/jpeg] for
    every other extension, the candidates with the extension of the
    source. *)
Theorem responsive_markup (o : Markup.options) (stem e : string) :
  Markup.o_src o = stem +:+ "." +:+ e →
  e ≠ "" → JS.includes e "/" = false → JS.includes e "." = false →
  let widths := default [320; 640; 768; 1024; 1280; 1920] (Markup.o_widths o) in
  occursIn
    (" srcset=" +:+ Markup.dq +:+ Markup.candidates stem ".webp" widths
       +:+ Markup.dq)
    (Markup.createResponsiveImage o) ∧
  occursIn
    (Markup.dq
       +:+ (if String.eqb ("." +:+ e) ".png" then "image/png" else "image/jpeg")
       +:+ Markup.dq +:+ " srcset=" +:+ Markup.dq
       +:+ Markup.candidates stem ("." +:+ e) widths +:+ Markup.dq)
    (Markup.createResponsiveImage o).
Proof.
  intros Hsrc Hne Hs Hd widths.
  unfold Markup.createResponsiveImage. cbv zeta. fold widths. rewrite Hsrc.
  destruct (responsive_parts_dot stem e Hne Hs Hd) as [-> ->].
  split.
  - repeat first
      [ solve [eapply occursIn_here; rewrite !append_assoc; reflexivity]
      | apply occursIn_skip ].
  - repeat first
      [ solve [eapply occursIn_here; rewrite !append_assoc; reflexivity]
      | apply occursIn_skip ].
Qed.

Lemma responsive_markup_witness :
  occursIn
    (" srcset=" +:+ Markup.dq
       +:+ "img/hero-320w.webp 320w, img/hero-640w.webp 640w" +:+ Markup.dq)
    (Markup.createResponsiveImage
       (Markup.Options "img/hero.gif" (Some "Hero") None (Some [320; 640])
          None None)).
Proof.
  apply (proj1 (responsive_markup
                  (Markup.Options "img/hero.gif" (Some "Hero") None
                     (Some [320; 640]) None None)
                  "img/hero" "gif" eq_refl ltac:(discriminate) eq_refl eq_refl)).
Defined.
